(** * Shannon-Fano and Huffman compression: a shallow embedding of
      [Shannon_Huffman.py] and the properties of its specification.

    Modelling conventions.
    - A Python [str] is a list of symbols; a string of ['0']/['1'] characters
      is a [list bool] ([false] is ['0'], [true] is ['1']).
    - A tree node is the Python dict the source builds, with the keys
      ['char'], ['freq'], ['left'], ['right']; a key that may be absent is an
      [option].  Key presence is what the source tests (['char' in node]).
    - The frequency table is an insertion-ordered dict, hence an association
      list in insertion order; the code table is only ever looked up, hence a
      [gmap].
    - A raised Python exception is [Raise]; the recursion depth of
      [build_shannon_tree] is bounded by an explicit depth budget, and running
      out of it is Python's [RecursionError].
    - [id(obj)] is not a function of the program text: it is supplied by an
      [identity] oracle.  [heapq] is modelled by its contract, a priority
      queue that hands out its smallest item.
    - The doubles of [shannon_fano_split] ([total / 2.0], [cumulative - half])
      are modelled in [shannon_fano_split_double], with their rounding, their
      infinities and the [OverflowError] of [float(n)].  [shannon_fano_split]
      is the same loop in exact arithmetic; the two agree as long as the
      cumulative weights stay within 2^51 (lemma
      [shannon_fano_split_double_exact]).  The tree builder is stated on the
      exact one; on the items of a text of at most 2^51 symbols it builds
      the tree that [build_shannon_tree_double] builds with the doubles
      (lemma [build_shannon_tree_double_of_text]).
    - The recursion of [generate_codes] is budgeted in
      [generate_codes_within]; [generate_codes] is what it returns when the
      budget suffices (lemma [generate_codes_within_depth]).
    - Of what [demo_equivalence] prints, the text and the UTF-8 encoding in
      [print_stats] can raise; which symbols the standard output and UTF-8
      take is given by two predicates. *)

From Stdlib Require Import Ascii String ZArith QArith Qabs Lia ZifyNat Lqa.
From stdpp Require Import gmap strings list sorting.

Local Open Scope Z_scope.

(** ** Python exceptions and fallible results *)

Inductive exn : Type :=
| KeyError
| TypeError
| RecursionError
| OverflowError
| UnicodeEncodeError.

Inductive res (A : Type) : Type :=
| Ok (a : A)
| Raise (e : exn).
Arguments Ok {A} a.
Arguments Raise {A} e.

Global Instance res_ret : MRet res := λ A a, Ok a.
Global Instance res_bind : MBind res := λ A B f m,
  match m with
  | Ok a => f a
  | Raise e => Raise e
  end.

Definition is_Ok {A} (r : res A) : Prop := ∃ a, r = Ok a.

(** A bit string. *)
Abbreviation bits := (list bool).

(** ** Doubles

    Every double that [shannon_fano_split] computes is a whole number
    ([float(n)]) or a whole number of halves ([total / 2.0], the difference
    of two such numbers), or an infinity. *)

(** Rounding to 53 significant bits, ties to even: the double nearest to a
    whole number [x], and, with [x] counting halves, to [x] halves. *)
Definition round53 (x : Z) : Z :=
  let a := Z.abs x in
  let s := Z.log2 a - 52 in
  if s <=? 0 then x
  else
    let m := Z.shiftr a s in
    let r := Z.land a (Z.ones s) in
    let up := (2 ^ (s - 1) <? r) || ((r =? 2 ^ (s - 1)) && Z.odd m) in
    Z.sgn x * ((if up then m + 1 else m) * 2 ^ s).

(** [float(n)] for an int [n], as the whole number the double holds; an int
    that rounds to 2^1024 or beyond is too large to convert. *)
Definition float_of_int (n : Z) : res Z :=
  let v := round53 n in
  if 2 ^ 1024 <=? Z.abs v then Raise OverflowError else Ok v.

(** A double held as its number of halves, or an infinity. *)
Inductive double : Type :=
| Finite (halves : Z)
| Infinite (negative : bool).

(** [x - y] for the doubles of [x] halves and of [y] halves; a result that
    rounds to 2^1024 or beyond is an infinity. *)
Definition double_sub (x y : Z) : double :=
  let r := round53 (x - y) in
  if 2 ^ 1025 <=? Z.abs r then Infinite (r <? 0) else Finite r.

Definition double_abs (d : double) : double :=
  match d with
  | Finite h => Finite (Z.abs h)
  | Infinite _ => Infinite false
  end.

Definition double_lt (a b : double) : bool :=
  match a, b with
  | Finite x, Finite y => x <? y
  | Finite _, Infinite negative => negb negative
  | Infinite negative, Finite _ => negative
  | Infinite negative, Infinite negative' => negative && negb negative'
  end.

Section Coding.
Context {symbol : Type} `{Countable symbol}.

(** ** Data model *)

(** A tree node: the dict [{'char': c, 'freq': f}] of a leaf or the dict
    [{'freq': f, 'left': l, 'right': r}] of a merged node.  Nothing in the
    type forces the two shapes. *)
#[warnings="-register-all"]
Inductive node : Type :=
| Dict (char : option symbol) (freq : Z) (left right : option node).

Definition node_char (n : node) : option symbol := let 'Dict c _ _ _ := n in c.
Definition node_freq (n : node) : Z := let 'Dict _ f _ _ := n in f.
Definition node_left (n : node) : option node := let 'Dict _ _ l _ := n in l.
Definition node_right (n : node) : option node := let 'Dict _ _ _ r := n in r.

(** [{'char': c, 'freq': f}] *)
Definition leaf_dict (c : symbol) (f : Z) : node := Dict (Some c) f None None.
(** [{'freq': f, 'left': l, 'right': r}] *)
Definition merged_dict (f : Z) (l r : node) : node := Dict None f (Some l) (Some r).

(** [node[key]] raises [KeyError] when the key is absent. *)
Definition subscript {A} (field : option A) : res A :=
  match field with
  | Some a => Ok a
  | None => Raise KeyError
  end.

Local Abbreviation freq_table := (list (symbol * Z)).

(** ** Shared utilities *)

(** One step of [Counter(text)]: increment the count of [c] in place, or
    append it with count 1 (dicts keep insertion order). *)
Fixpoint count_symbol (c : symbol) (tbl : freq_table) : freq_table :=
  match tbl with
  | [] => [(c, 1)]
  | (k, n) :: rest =>
      if decide (k = c) then (k, n + 1) :: rest else (k, n) :: count_symbol c rest
  end.

Definition analyze_frequencies (text : list symbol) : freq_table :=
  foldl (λ tbl c, count_symbol c tbl) [] text.

(** [''.join(code_table[char] for char in text)] *)
Fixpoint join_codes (text : list symbol) (code_table : gmap symbol bits) : res bits :=
  match text with
  | [] => Ok []
  | c :: rest =>
      code ← subscript (code_table !! c);
      tail ← join_codes rest code_table;
      Ok (code ++ tail)
  end.

(** [int(byte, 2)] *)
Definition int2 (byte : bits) : Z :=
  foldl (λ acc (b : bool), 2 * acc + (if b then 1 else 0)) 0 byte.

(** [range(0, stop, step)] *)
Definition range_step (stop step : nat) : list nat :=
  (λ k, step * k)%nat <$> seq 0 ((stop + step - 1) / step)%nat.

Definition padding_of (len : nat) : nat := ((8 - len mod 8) mod 8)%nat.

(** The byte loop shared by [encode_text] and [arithmetic_compress]. *)
Definition pack_bits (bs : bits) : list Z :=
  (λ i, int2 (take 8 (drop i bs))) <$> range_step (length bs) 8.

Definition encode_text (text : list symbol) (code_table : gmap symbol bits)
  : res (list Z * nat) :=
  bs ← join_codes text code_table;
  let padding := padding_of (length bs) in
  let bs := bs ++ replicate padding false in
  Ok (pack_bits bs, padding).

(** The loop of [decode_bits]; the state is the pair ([result], [node]). *)
Fixpoint decode_loop (tree : node) (bs : bits) (nd : node) (result : list symbol)
  {struct bs} : res (list symbol * node) :=
  match bs with
  | [] => Ok (result, nd)
  | bit :: rest =>
      child ← subscript (if bit then node_right nd else node_left nd);
      match node_char child with
      | Some c => decode_loop tree rest tree (result ++ [c])
      | None => decode_loop tree rest child result
      end
  end.

(** [bits[:-padding]] for [padding > 0]; an over-long padding leaves [''] *)
Definition strip_padding (bs : bits) (padding : nat) : bits :=
  if decide (0 < padding)%nat then take (length bs - padding)%nat bs else bs.

Definition decode_bits (bs : bits) (tree : node) (padding : nat) : res (list symbol) :=
  '(result, _) ← decode_loop tree (strip_padding bs padding) tree [];
  Ok result.

(** [format(byte, '08b')] for a byte value in [0, 256) *)
Definition format_08b (byte : Z) : bits :=
  (λ i, Z.testbit byte (Z.of_nat (7 - i))) <$> seq 0 8.

Definition bytes_to_bits (data : list Z) : bits :=
  concat (format_08b <$> data).

(** ** Shannon-Fano *)

(** [sum(freq for _, freq in items)] *)
Definition sum_freq (items : freq_table) : Z :=
  foldl (λ acc it, acc + it.2) 0 items.

(** [diff < min_diff], where [None] is [float('inf')] *)
Definition lt_min_diff (diff : Q) (min_diff : option Q) : bool :=
  match min_diff with
  | None => true
  | Some m => if Qlt_le_dec diff m then true else false
  end.

(** The [for i in range(len(items))] loop of [shannon_fano_split], from
    iteration [i] on; [rest] holds [items[i:]]. *)
Fixpoint split_loop (half : Q) (rest : freq_table) (i : nat) (cumulative : Z)
    (best_split : Z) (min_diff : option Q) : Z :=
  match rest with
  | [] => best_split
  | it :: rest =>
      let cumulative := cumulative + it.2 in
      let diff := Qabs (inject_Z cumulative - half) in
      if lt_min_diff diff min_diff
      then split_loop half rest (S i) cumulative (Z.of_nat i + 1) (Some diff)
      else split_loop half rest (S i) cumulative best_split min_diff
  end.

Definition shannon_fano_split (items : freq_table) : Z :=
  let total := sum_freq items in
  let half := (inject_Z total / 2)%Q in
  let best_split := split_loop half items 0 0 1 None in
  Z.max 1 (Z.min best_split (Z.of_nat (length items) - 1)).

(** [shannon_fano_split] with the doubles of the source.  [half] counts the
    halves of [total / 2.0], which are [float(total)] many; [float(cumulative)]
    counts twice its value in halves; [min_diff] starts as [float('inf')]. *)
Fixpoint split_loop_double (half : Z) (rest : freq_table) (i : nat)
    (cumulative : Z) (best_split : Z) (min_diff : double) : res Z :=
  match rest with
  | [] => Ok best_split
  | it :: rest =>
      let cumulative := cumulative + it.2 in
      c ← float_of_int cumulative;
      let diff := double_abs (double_sub (2 * c) half) in
      if double_lt diff min_diff
      then split_loop_double half rest (S i) cumulative (Z.of_nat i + 1) diff
      else split_loop_double half rest (S i) cumulative best_split min_diff
  end.

Definition shannon_fano_split_double (items : freq_table) : res Z :=
  let total := sum_freq items in
  half ← float_of_int total;
  best_split ← split_loop_double half items 0 0 1 (Infinite false);
  Ok (Z.max 1 (Z.min best_split (Z.of_nat (length items) - 1))).

(** [depth] is the number of nested calls still allowed. *)
Fixpoint build_shannon_tree (depth : nat) (items : freq_table) : res node :=
  match depth with
  | O => Raise RecursionError
  | S depth =>
      match items with
      | [(c, f)] => Ok (leaf_dict c f)
      | _ =>
          let split := Z.to_nat (shannon_fano_split items) in
          let left_items := take split items in
          let right_items := drop split items in
          let total_freq := sum_freq items in
          l ← build_shannon_tree depth left_items;
          r ← build_shannon_tree depth right_items;
          Ok (merged_dict total_freq l r)
      end
  end.

(** [build_shannon_tree] with the split on doubles. *)
Fixpoint build_shannon_tree_double (depth : nat) (items : freq_table) : res node :=
  match depth with
  | O => Raise RecursionError
  | S depth =>
      match items with
      | [(c, f)] => Ok (leaf_dict c f)
      | _ =>
          split ← shannon_fano_split_double items;
          let split := Z.to_nat split in
          let left_items := take split items in
          let right_items := drop split items in
          let total_freq := sum_freq items in
          l ← build_shannon_tree_double depth left_items;
          r ← build_shannon_tree_double depth right_items;
          Ok (merged_dict total_freq l r)
      end
  end.

(** [generate_codes(tree, prefix)] on a dict; [codes.update(d)] lets [d]
    win on a key that is already present. *)
Fixpoint generate_codes (tree : node) (prefix : bits) : gmap symbol bits :=
  match tree with
  | Dict (Some c) _ _ _ =>
      {[ c := match prefix with [] => [false] | _ => prefix end ]}
  | Dict None _ l r =>
      let codes : gmap symbol bits := ∅ in
      let codes :=
        match l with
        | Some l => generate_codes l (prefix ++ [false]) ∪ codes
        | None => codes
        end in
      let codes :=
        match r with
        | Some r => generate_codes r (prefix ++ [true]) ∪ codes
        | None => codes
        end in
      codes
  end.

(** [generate_codes] under a recursion limit: [depth] is the number of
    nested calls still allowed. *)
Fixpoint generate_codes_within (depth : nat) (tree : node) (prefix : bits)
  : res (gmap symbol bits) :=
  match depth with
  | O => Raise RecursionError
  | S depth =>
      match tree with
      | Dict (Some c) _ _ _ =>
          Ok {[ c := match prefix with [] => [false] | _ => prefix end ]}
      | Dict None _ l r =>
          let codes : gmap symbol bits := ∅ in
          codes ←
            match l with
            | Some l =>
                sub ← generate_codes_within depth l (prefix ++ [false]);
                Ok (sub ∪ codes)
            | None => Ok codes
            end;
          codes ←
            match r with
            | Some r =>
                sub ← generate_codes_within depth r (prefix ++ [true]);
                Ok (sub ∪ codes)
            | None => Ok codes
            end;
          Ok codes
      end
  end.

(** [generate_codes(tree)] when [tree] may be [None]: ['char' in None] is a
    [TypeError]. *)
Definition generate_codes_of (tree : option node) : res (gmap symbol bits) :=
  match tree with
  | Some t => Ok (generate_codes t [])
  | None => Raise TypeError
  end.

(** [sorted(items, key=lambda x: x[1], reverse=True)]: a stable sort, larger
    frequency first; items of equal frequency keep their relative order. *)
Fixpoint insert_by_freq (it : symbol * Z) (sorted : freq_table) : freq_table :=
  match sorted with
  | [] => [it]
  | y :: rest =>
      if decide (it.2 < y.2) then y :: insert_by_freq it rest else it :: y :: rest
  end.

Definition sorted_by_freq (items : freq_table) : freq_table :=
  foldr insert_by_freq [] items.

(** [depth] is the interpreter's recursion limit. *)
Definition shannon_fano_compress (depth : nat) (text : list symbol)
  : res (list Z * node * nat * gmap symbol bits) :=
  let frequencies := analyze_frequencies text in
  let items := sorted_by_freq frequencies in
  tree ← build_shannon_tree depth items;
  let code_table := generate_codes tree [] in
  '(compressed_data, padding) ← encode_text text code_table;
  Ok (compressed_data, tree, padding, code_table).

Definition shannon_fano_decompress (compressed_data : list Z) (tree : node)
    (padding : nat) : res (list symbol) :=
  decode_bits (bytes_to_bits compressed_data) tree padding.

(** ** Huffman *)

(** The object identities a run observes: [id(char)] of a symbol and
    [id(merged)] of the [k]-th merged dict the run creates. *)
Record identity : Type := Identity {
  id_char : symbol → Z;
  id_merged : nat → Z
}.

(** A heap item [(freq, id, node)]. *)
Local Abbreviation item := (Z * Z * node)%type.

(** Tuple comparison on the first two components.  Objects that are alive
    together have distinct identities, so the comparison of two items in the
    heap is decided before it reaches the dicts. *)
Definition item_lt (a b : item) : bool :=
  (a.1.1 <? b.1.1) || ((a.1.1 =? b.1.1) && (a.1.2 <? b.1.2)).

(** [heapq] by its contract: [heappop] removes the smallest item.  The heap
    is kept as the list of its items in increasing order. *)
Fixpoint heappush (heap : list item) (x : item) : list item :=
  match heap with
  | [] => [x]
  | y :: rest => if item_lt x y then x :: y :: rest else y :: heappush rest x
  end.

(** The [while len(heap) > 1] loop; [k] counts the merged dicts created so
    far and [steps] bounds the iterations ([None]: bound exhausted). *)
Fixpoint merge_loop (ids : identity) (steps : nat) (k : nat) (heap : list item)
  : option (list item) :=
  match heap with
  | (freq1, _, l) :: (freq2, _, r) :: heap =>
      match steps with
      | O => None
      | S steps =>
          let merged := merged_dict (freq1 + freq2) l r in
          merge_loop ids steps (S k)
            (heappush heap (freq1 + freq2, id_merged ids k, merged))
      end
  | _ => Some heap
  end.

(** The heap after the leaf loop of [build_huffman_tree]. *)
Definition leaf_heap (ids : identity) (frequencies : freq_table) : list item :=
  foldl (λ heap '(c, f), heappush heap (f, id_char ids c, leaf_dict c f))
        [] frequencies.

(** Every iteration shortens the heap by one, so [length heap] iterations
    are enough (lemma [merge_loop_terminates]); the [None] branch is dead. *)
Definition build_huffman_tree (ids : identity) (frequencies : freq_table)
  : option node :=
  let heap := leaf_heap ids frequencies in
  match merge_loop ids (length heap) 0 heap with
  | Some (x :: _) => Some x.2
  | _ => None
  end.

Definition huffman_compress (ids : identity) (text : list symbol)
  : res (list Z * option node * nat * gmap symbol bits) :=
  let frequencies := analyze_frequencies text in
  let tree := build_huffman_tree ids frequencies in
  code_table ← generate_codes_of tree;
  '(compressed_data, padding) ← encode_text text code_table;
  Ok (compressed_data, tree, padding, code_table).

Definition huffman_decompress (compressed_data : list Z) (tree : node)
    (padding : nat) : res (list symbol) :=
  decode_bits (bytes_to_bits compressed_data) tree padding.

(** ** The path named arithmetic coding *)

Record metadata : Type := Metadata {
  meta_frequencies : freq_table;
  meta_tree : option node;
  meta_code_table : gmap symbol bits;
  meta_text_length : nat
}.

(** The empty dict [{}] returned for an empty text is [None]. *)
Definition arithmetic_compress (ids : identity) (text : list symbol)
  : res (list Z * option metadata * nat) :=
  match text with
  | [] => Ok ([], None, 0%nat)
  | _ =>
      let frequencies := analyze_frequencies text in
      let tree := build_huffman_tree ids frequencies in
      code_table ← generate_codes_of tree;
      bs ← join_codes text code_table;
      let padding := ((8 - length bs mod 8) mod 8)%nat in
      let bs := bs ++ replicate padding false in
      let byte_array :=
        (λ i, int2 (take 8 (drop i bs))) <$> range_step (length bs) 8 in
      let compressed_data := byte_array in
      let metadata := Metadata frequencies tree code_table (length text) in
      Ok (compressed_data, Some metadata, padding)
  end.

(** [arithmetic_decompress(compressed_data, metadata, padding)]: empty bytes
    or the empty dict [{}] give [""]; otherwise the loop of [decode_bits],
    which the source writes out a second time, runs on [metadata['tree']]. *)
Definition arithmetic_decompress (compressed_data : list Z)
    (metadata : option metadata) (padding : nat) : res (list symbol) :=
  match compressed_data, metadata with
  | [], _ | _, None => Ok []
  | _, Some metadata =>
      let tree := meta_tree metadata in
      let bs := concat (format_08b <$> compressed_data) in
      let bs :=
        if decide (0 < padding)%nat then take (length bs - padding)%nat bs
        else bs in
      match tree with
      | Some tree => '(result, _) ← decode_loop tree bs tree []; Ok result
      | None => match bs with [] => Ok [] | _ => Raise TypeError end
      end
  end.

(** ** The demonstration *)

(** [print(s)] for a string [s] made of [symbols]: the codec of the
    standard output raises on a symbol that it cannot encode; [printable]
    tells which symbols it can. *)
Definition print (printable : symbol → bool) (symbols : list symbol) : res unit :=
  if forallb printable symbols then Ok () else Raise UnicodeEncodeError.

(** [print_stats(name, original_text, compressed_data, code_table)]:
    [original_text.encode('utf-8')] raises on a symbol that UTF-8 has no
    encoding for, a lone surrogate; [encodable] tells which symbols have
    one.  Both divisions are guarded against a zero divisor, and what is
    printed are the name and numbers. *)
Definition print_stats {T : Type} (encodable : symbol → bool)
    (original_text : list symbol) (compressed_data : list Z) (code_table : T)
  : res unit :=
  if forallb encodable original_text then Ok () else Raise UnicodeEncodeError.

(** [demo_equivalence(text)]: the first hundred symbols of the text printed,
    the three compressions, each followed by [print_stats], the three
    decompressions and the returned flag; the prints of fixed strings are
    left out.  The Huffman and the arithmetic call each create their own
    merged dicts, hence the two identity oracles; [arithmetic_decompress]
    is called without a padding argument, which defaults to 0. *)
Definition demo_equivalence (printable encodable : symbol → bool) (depth : nat)
    (ids_huffman ids_arithmetic : identity) (text : list symbol) : res bool :=
  _ ← print printable (take 100 text);
  '(shannon_compressed, shannon_tree, shannon_padding, shannon_codes) ←
    shannon_fano_compress depth text;
  _ ← print_stats encodable text shannon_compressed shannon_codes;
  '(huffman_compressed, huffman_tree, huffman_padding, huffman_codes) ←
    huffman_compress ids_huffman text;
  _ ← print_stats encodable text huffman_compressed huffman_codes;
  '(arithmetic_compressed, arithmetic_metadata, _) ←
    arithmetic_compress ids_arithmetic text;
  frequencies ← subscript (meta_frequencies <$> arithmetic_metadata);
  _ ← print_stats encodable text arithmetic_compressed frequencies;
  shannon_decompressed ←
    shannon_fano_decompress shannon_compressed shannon_tree shannon_padding;
  huffman_decompressed ←
    match huffman_tree with
    | Some tree => huffman_decompress huffman_compressed tree huffman_padding
    | None =>
        match strip_padding (bytes_to_bits huffman_compressed) huffman_padding with
        | [] => Ok []
        | _ => Raise TypeError
        end
    end;
  arithmetic_decompressed ←
    arithmetic_decompress arithmetic_compressed arithmetic_metadata 0;
  let shannon_match := bool_decide (shannon_decompressed = text) in
  let huffman_match := bool_decide (huffman_decompressed = text) in
  let arithmetic_match := bool_decide (arithmetic_decompressed = text) in
  Ok (shannon_match && huffman_match && arithmetic_match).

End Coding.

(** ** Running the model on concrete texts *)

Definition text_of (s : string) : list ascii := list_ascii_of_string s.

(** Identities that grow with creation order. *)
Definition ids_up : @identity ascii :=
  Identity (λ c, Z.of_nat (nat_of_ascii c)) (λ k, 1000 + Z.of_nat k).
(** Identities under which later merged dicts get smaller addresses. *)
Definition ids_down : @identity ascii :=
  Identity (λ c, Z.of_nat (nat_of_ascii c)) (λ k, 1000 - Z.of_nat k).

(** Texts as lists of code points: UTF-8 encodes every code point but the
    surrogates, U+D800 to U+DFFF. *)
Definition utf8_encodable (c : Z) : bool := negb ((55296 <=? c) && (c <=? 57343)).
Definition ids_code_points : @identity Z := Identity (λ c, c) (λ k, 2 ^ 21 + Z.of_nat k).

Definition table_abcd : list (ascii * Z) := analyze_frequencies (text_of "abcd").

(** The items and the Shannon-Fano tree of ["abracadabra"]. *)
Definition items_abr : list (ascii * Z) :=
  sorted_by_freq (analyze_frequencies (text_of "abracadabra")).

Definition tree_abr : @node ascii :=
  merged_dict 11 (leaf_dict "a"%char 5)
    (merged_dict 6 (leaf_dict "b"%char 2)
       (merged_dict 4 (leaf_dict "r"%char 2)
          (merged_dict 2 (leaf_dict "c"%char 1) (leaf_dict "d"%char 1)))).

(** ** Specification-side notions *)

Section Notions.
Context {symbol : Type} `{Countable symbol}.
Local Abbreviation node := (@node symbol).

(** The total bit length of a text: the sum of the lengths of its symbols'
    codes. *)
Definition total_bit_length (text : list symbol) (code_table : gmap symbol bits)
  : nat :=
  sum_list ((λ c, length (default [] (code_table !! c))) <$> text).

(** The distance between the weight of the first [k] items and half the
    total weight: what a split after [k] items is judged by. *)
Definition split_diff (items : list (symbol * Z)) (k : nat) : Q :=
  Qabs (inject_Z (sum_freq (take k items)) - inject_Z (sum_freq items) / 2).

(** What the loop of [shannon_fano_split] knows after [i] iterations. *)
Definition split_inv (items : list (symbol * Z)) (i : nat) (best_split : Z)
    (min_diff : option Q) : Prop :=
  match min_diff with
  | None => i = 0%nat ∧ best_split = 1
  | Some d =>
      ∃ b : nat, best_split = Z.of_nat b ∧ (1 ≤ b ≤ i)%nat ∧
        d = split_diff items b ∧
        (∀ k, (1 ≤ k ≤ i)%nat → (split_diff items b <= split_diff items k)%Q) ∧
        (∀ k, (1 ≤ k < b)%nat → (split_diff items b < split_diff items k)%Q)
  end.

(** Every cumulative weight of the items, the total included, is within
    [bound] in absolute value. *)
Definition weights_within (bound : Z) (items : list (symbol * Z)) : Prop :=
  ∀ k, Z.abs (sum_freq (take k items)) ≤ bound.

(** The same along the loop: the weights still to come, on top of
    [cumulative]. *)
Fixpoint weights_ahead_within (bound : Z) (cumulative : Z)
    (rest : list (symbol * Z)) : Prop :=
  match rest with
  | [] => True
  | it :: rest =>
      Z.abs (cumulative + it.2) ≤ bound ∧
      weights_ahead_within bound (cumulative + it.2) rest
  end.

(** The smallest difference so far, as the exact loop and as the loop on
    doubles hold it. *)
Definition same_min_diff (total : Z) (exact : option Q) (float : double) : Prop :=
  match exact, float with
  | None, Infinite false => True
  | Some d, Finite h =>
      ∃ c, d = Qabs (inject_Z c - inject_Z total / 2) ∧ h = Z.abs (2 * c - total)
  | _, _ => False
  end.

(** The number of nested calls that [generate_codes] makes on a tree, the
    first one included: the number of dicts on the longest path from the
    root down, a path ending at the first dict with a ['char']. *)
Fixpoint generate_codes_depth (t : node) : nat :=
  match t with
  | Dict (Some _) _ _ _ => 1
  | Dict None _ l r =>
      S (Nat.max (match l with Some l => generate_codes_depth l | None => 0 end)
                 (match r with Some r => generate_codes_depth r | None => 0 end))
  end.

(** The distinct symbols of a text in the order of their first occurrence. *)
Fixpoint first_occurrences (text : list symbol) : list symbol :=
  match text with
  | [] => []
  | c :: rest => c :: filter (λ x, x ≠ c) (first_occurrences rest)
  end.

(** Larger frequency first. *)
Definition freq_ge (x y : symbol * Z) : Prop := y.2 ≤ x.2.

(** A full binary tree of leaf and merged dicts: a node with a ['char'] has
    no child, a node without has both children. *)
Fixpoint full (t : node) : Prop :=
  match t with
  | Dict (Some _) _ None None => True
  | Dict None _ (Some l) (Some r) => full l ∧ full r
  | _ => False
  end.



(** The symbols at the leaves of a tree, left to right. *)
Fixpoint leaves (t : node) : list symbol :=
  match t with
  | Dict (Some c) _ _ _ => [c]
  | Dict None _ l r =>
      match l with Some l => leaves l | None => [] end ++
      match r with Some r => leaves r | None => [] end
  end.

(** [node['right']] for bit ['1'], [node['left']] for any other bit. *)
Definition child (bit : bool) (nd : node) : option node :=
  if bit then node_right nd else node_left nd.

(** [walk nd p = Some c]: going down from [nd] along [p] meets no dict with a
    ['char'] before the end of [p] and ends on one holding [c]. *)
Fixpoint walk (nd : node) (p : bits) {struct p} : option symbol :=
  match p with
  | [] => None
  | bit :: p =>
      match child bit nd with
      | None => None
      | Some ch =>
          match node_char ch with
          | Some c => match p with [] => Some c | _ => None end
          | None => walk ch p
          end
      end
  end.

(** [descend nd p]: the dict reached from [nd] along [p] when no dict on the
    way, the last included, has a ['char']. *)
Fixpoint descend (nd : node) (p : bits) {struct p} : option node :=
  match p with
  | [] => Some nd
  | bit :: p =>
      match child bit nd with
      | None => None
      | Some ch =>
          match node_char ch with
          | Some _ => None
          | None => descend ch p
          end
      end
  end.

(** Identities that grow in creation order: the symbols' in the order of
    the table, every merged dict's above them and above those of the merged
    dicts made before it. *)
Definition creation_ordered (ids : identity) (tbl : list (symbol * Z)) : Prop :=
  StronglySorted Z.lt (id_char ids <$> tbl.*1) ∧
  (∀ c k, c ∈ tbl.*1 → id_char ids c < id_merged ids k) ∧
  (∀ k k', (k < k')%nat → id_merged ids k < id_merged ids k').

(** The sequence counter of the specification as identities: a leaf gets
    the position of its symbol in the table, the [k]-th merged dict the
    number after the leaves' and the earlier merged dicts'. *)
Fixpoint index_of (c : symbol) (l : list symbol) : nat :=
  match l with
  | [] => 0
  | x :: l => if decide (x = c) then 0 else S (index_of c l)
  end.

Definition sequence_ids (tbl : list (symbol * Z)) : identity :=
  Identity (λ c, Z.of_nat (index_of c tbl.*1))
           (λ k, Z.of_nat (length tbl + k)).

(** The number of dicts in a tree. *)
Fixpoint size (t : node) : nat :=
  let 'Dict _ _ l r := t in
  S (match l with Some l => size l | None => 0 end +
     match r with Some r => size r | None => 0 end).

(** What an item weighs and holds, its identity apart. *)
Definition content (x : Z * Z * node) : Z * node := (x.1.1, x.2).

(** Insertion by weight alone, behind the items of the same weight. *)
Fixpoint push_by_freq (heap : list (Z * node)) (x : Z * node) : list (Z * node) :=
  match heap with
  | [] => [x]
  | y :: rest => if x.1 <? y.1 then x :: y :: rest else y :: push_by_freq rest x
  end.

(** How often [c] occurs in [text]. *)
Definition occurrences (c : symbol) (text : list symbol) : nat :=
  length (filter (λ x, x = c) text).

(** [frequencies.get(c, 0)] on the table as a list of pairs. *)
Fixpoint freq_of (c : symbol) (tbl : list (symbol * Z)) : Z :=
  match tbl with
  | [] => 0
  | (k, n) :: rest => if decide (k = c) then n else freq_of c rest
  end.

(** The leaf dicts of a tree, left to right, as (symbol, frequency) pairs. *)
Fixpoint leaf_items (t : node) : list (symbol * Z) :=
  match t with
  | Dict (Some c) f _ _ => [(c, f)]
  | Dict None _ l r =>
      match l with Some l => leaf_items l | None => [] end ++
      match r with Some r => leaf_items r | None => [] end
  end.

(** Every dict without ['char'] carries the sum of its children's
    ['freq']. *)
Fixpoint weights_add_up (t : node) : Prop :=
  match t with
  | Dict (Some _) _ _ _ => True
  | Dict None f l r =>
      f = match l with Some l => node_freq l | None => 0 end +
          match r with Some r => node_freq r | None => 0 end ∧
      match l with Some l => weights_add_up l | None => True end ∧
      match r with Some r => weights_add_up r | None => True end
  end.

(** The sum over the table of frequency times code length. *)
Definition weighted_length (tbl : list (symbol * Z))
    (code_table : gmap symbol bits) : Z :=
  foldr (λ it acc, it.2 * Z.of_nat (length (default [] (code_table !! it.1))) + acc)
        0 tbl.

End Notions.

Section Properties.
Context {symbol : Type} `{Countable symbol}.
Local Abbreviation freq_table := (list (symbol * Z)).
Local Abbreviation node := (@node symbol).
Local Abbreviation item := (Z * Z * node)%type.
Implicit Types (text : list symbol) (code_table : gmap symbol bits).
Implicit Types (items tbl : freq_table) (t nd : node).

(** *** Bit packing *)

Lemma join_codes_covered text code_table :
  (∀ c, c ∈ text → is_Some (code_table !! c)) →
  ∃ bs, join_codes text code_table = Ok bs ∧
        length bs = total_bit_length text code_table.
Proof.
  induction text as [|c text IH]; intros Hcov.
  - by exists [].
  - destruct (Hcov c) as [code Hc]; [left|].
    destruct IH as (bs & Hbs & Hlen); [intros; apply Hcov; by right|].
    exists (code ++ bs). cbn [join_codes]. rewrite Hc, Hbs.
    split; [done|].
    rewrite length_app, Hlen. unfold total_bit_length.
    rewrite fmap_cons. cbn [sum_list sum_list_with]. by rewrite Hc.
Qed.

Lemma length_range_step stop step :
  length (range_step stop step) = ((stop + step - 1) / step)%nat.
Proof.
unfold range_step. by rewrite length_fmap, length_seq. Qed.

Lemma length_pack_bits (bs : bits) :
  length (pack_bits bs) = ((length bs + 7) / 8)%nat.
Proof.
  unfold pack_bits. rewrite length_fmap, length_range_step.
  f_equal. lia.
Qed.

Lemma padding_of_spec (len : nat) :
  (padding_of len ≤ 7 ∧ (len + padding_of len) mod 8 = 0
   ∧ (len + padding_of len + 7) / 8 = (len + 7) / 8
   ∧ 8 * ((len + 7) / 8) = len + padding_of len)%nat.
Proof. unfold padding_of. lia. Qed.

(** C8: packing a text whose symbols all have a code succeeds; the padding
    count is [(8 - L mod 8) mod 8], lies in [0,7], and the number of bytes is
    the ceiling of [L / 8], where [L] is the total bit length. *)
Theorem encode_text_padding_and_length text code_table :
  (∀ c, c ∈ text → is_Some (code_table !! c)) →
  let L := total_bit_length text code_table in
  ∃ data padding,
    encode_text text code_table = Ok (data, padding) ∧
    (0 ≤ padding ≤ 7)%nat ∧
    padding = ((8 - L mod 8) mod 8)%nat ∧
    length data = ((L + 7) / 8)%nat ∧
    (L ≤ 8 * length data < L + 8)%nat ∧
    (8 * length data = L + padding)%nat.
Proof.
  intros Hcov L.
  destruct (join_codes_covered text code_table Hcov) as (bs & Hbs & Hlen).
  fold L in Hlen.
  exists (pack_bits (bs ++ replicate (padding_of (length bs)) false)),
         (padding_of (length bs)).
  unfold encode_text. rewrite Hbs.
  split; [done|].
  rewrite length_pack_bits, length_app, length_replicate, Hlen.
  destruct (padding_of_spec L) as (Hp & Hm & HL1 & HL2). rewrite HL1.
  repeat split; lia.
Qed.

(** *** The Shannon-Fano split *)

Lemma sum_freq_snoc items (it : symbol * Z) :
  sum_freq (items ++ [it]) = sum_freq items + it.2.
Proof. unfold sum_freq. by rewrite foldl_app. Qed.

Lemma split_loop_inv items : ∀ rest done i cumulative best_split min_diff,
  items = done ++ rest → i = length done → cumulative = sum_freq done →
  split_inv items i best_split min_diff →
  ∃ min_diff',
    split_inv items (length items)
      (split_loop (inject_Z (sum_freq items) / 2) rest i cumulative
         best_split min_diff) min_diff'.
Proof.
  induction rest as [|it rest IH]; intros done i cum best md Hitems Hi Hcum Hinv.
  - exists md. cbn. rewrite app_nil_r in Hitems. by subst.
  - cbn [split_loop].
    assert (Htake : take (S i) items = done ++ [it]).
    { subst items i. rewrite (cons_middle it done rest), app_assoc.
      apply take_app_length'. rewrite length_app. cbn. lia. }
    assert (Hdiff : Qabs (inject_Z (cum + it.2) - inject_Z (sum_freq items) / 2)
                    = split_diff items (S i)).
    { unfold split_diff. by rewrite Htake, sum_freq_snoc, Hcum. }
    rewrite Hdiff.
    assert (Hstep : ∀ best' md', split_inv items (S i) best' md' →
      ∃ md'', split_inv items (length items)
        (split_loop (inject_Z (sum_freq items) / 2) rest (S i) (cum + it.2)
           best' md') md'').
    { intros best' md' Hinv'. apply (IH (done ++ [it])); auto.
      - by rewrite <- app_assoc.
      - rewrite length_app. cbn. lia.
      - by rewrite sum_freq_snoc, Hcum. }
    destruct md as [d|]; cbn [lt_min_diff].
    + destruct Hinv as (b & -> & Hb & -> & Hmin & Hfirst).
      destruct (Qlt_le_dec _ _) as [Hlt|Hle]; apply Hstep; cbn.
      * exists (S i). repeat split; try lia.
        -- intros k Hk. destruct (decide (k = S i)) as [->|]; [apply Qle_refl|].
           apply Qlt_le_weak, (Qlt_le_trans _ _ _ Hlt), Hmin. lia.
        -- intros k Hk. apply (Qlt_le_trans _ _ _ Hlt), Hmin. lia.
      * exists b. repeat split; try lia; [|done].
        intros k Hk. destruct (decide (k = S i)) as [->|]; [done|].
        apply Hmin. lia.
    + destruct Hinv as [-> ->]. apply Hstep. cbn.
      exists 1%nat. repeat split; try lia.
      intros k Hk. replace k with 1%nat by lia. apply Qle_refl.
Qed.

Lemma sum_freq_acc items : ∀ a,
  foldl (λ acc (it : symbol * Z), acc + it.2) a items = a + sum_freq items.
Proof.
  unfold sum_freq. induction items as [|it items IH]; intros a; cbn; [lia|].
  rewrite IH, (IH (0 + it.2)). lia.
Qed.

Lemma sum_freq_app items1 items2 :
  sum_freq (items1 ++ items2) = sum_freq items1 + sum_freq items2.
Proof. unfold sum_freq at 1. by rewrite foldl_app, sum_freq_acc. Qed.

Lemma sum_freq_nonneg items :
  (∀ it, it ∈ items → 0 ≤ it.2) → 0 ≤ sum_freq items.
Proof.
  induction items as [|it items IH]; intros Hpos; [done|].
  change (it :: items) with ([it] ++ items). rewrite sum_freq_app.
  assert (0 ≤ it.2) by (apply Hpos; by left).
  assert (0 ≤ sum_freq items) by (apply IH; intros; apply Hpos; by right).
  unfold sum_freq at 1. cbn. lia.
Qed.

(** With frequencies that are not negative, taking everything into the left
    partition is never strictly better than taking one item. *)
Lemma split_diff_whole items :
  (∀ it, it ∈ items → 0 ≤ it.2) →
  (split_diff items 1 <= split_diff items (length items))%Q.
Proof.
  intros Hpos. unfold split_diff. rewrite (take_ge items (length items)) by done.
  pose proof (take_drop 1 items) as Hsplit.
  assert (Hf : 0 ≤ sum_freq (take 1 items) ≤ sum_freq items).
  { rewrite <- Hsplit at 3. rewrite sum_freq_app.
    assert (0 ≤ sum_freq (take 1 items)).
    { apply sum_freq_nonneg. intros it Hit. apply Hpos.
      rewrite <- Hsplit. apply elem_of_app. by left. }
    assert (0 ≤ sum_freq (drop 1 items)).
    { apply sum_freq_nonneg. intros it Hit. apply Hpos.
      rewrite <- Hsplit. apply elem_of_app. by right. }
    lia. }
  destruct Hf as [Hf0 HfT].
  rewrite Zle_Qle in Hf0, HfT.
  set (f := inject_Z (sum_freq (take 1 items))) in *.
  set (T := inject_Z (sum_freq items)) in *.
  change (inject_Z 0) with 0%Q in Hf0. clearbody f T.
  eapply Qle_trans; [|apply Qle_Qabs].
  apply Qabs_Qle_condition. unfold Qdiv. change (/ 2)%Q with (1 # 2)%Q.
  split; lra.
Qed.

(** The exact loop: on two or more items the split index is the first
    index, scanning the split points 1..n left to right, at which the
    distance between the left partition's weight and half the total weight
    is minimal, clamped to the range [1, n-1]; with frequencies that are not
    negative the clamp changes nothing. *)
Lemma shannon_fano_split_first_minimum items :
  (2 ≤ length items)%nat →
  let n := length items in
  ∃ b : nat,
    (1 ≤ b ≤ n)%nat ∧
    (∀ k, (1 ≤ k ≤ n)%nat → (split_diff items b <= split_diff items k)%Q) ∧
    (∀ k, (1 ≤ k < b)%nat → (split_diff items b < split_diff items k)%Q) ∧
    shannon_fano_split items = Z.max 1 (Z.min (Z.of_nat b) (Z.of_nat n - 1)) ∧
    1 ≤ shannon_fano_split items ≤ Z.of_nat n - 1 ∧
    ((∀ it, it ∈ items → 0 ≤ it.2) → shannon_fano_split items = Z.of_nat b).
Proof.
  intros Hn n.
  destruct (split_loop_inv items items [] 0%nat 0 1 None) as [md Hinv]; try done.
  destruct md as [d|].
  - destruct Hinv as (b & Hbest & Hb & _ & Hmin & Hfirst).
    exists b. unfold shannon_fano_split. rewrite Hbest. fold n.
    repeat split; auto; try lia.
    intros Hpos. destruct (decide (b = n)) as [->|Hne]; [|lia].
    exfalso. apply (Qlt_irrefl (split_diff items 1)).
    eapply Qle_lt_trans; [by apply split_diff_whole|]. apply Hfirst. lia.
  - destruct Hinv as [Hz _]. lia.
Qed.

(** *** The split on doubles *)

Lemma round53_exact (x : Z) : Z.abs x < 2 ^ 53 → round53 x = x.
Proof.
  intros Hx. unfold round53. cbv zeta.
  destruct (Z.leb_spec (Z.log2 (Z.abs x) - 52) 0) as [_|Hs]; [done|].
  exfalso. destruct (decide (Z.abs x = 0)) as [H0|H0].
  - rewrite H0 in Hs. cbn in Hs. lia.
  - assert (Z.log2 (Z.abs x) < 53) by (apply Z.log2_lt_pow2; lia). lia.
Qed.

Lemma float_of_int_exact (n : Z) : Z.abs n ≤ 2 ^ 51 → float_of_int n = Ok n.
Proof.
  intros Hn. unfold float_of_int. cbv zeta.
  assert (2 ^ 51 < 2 ^ 53) by (by apply Z.pow_lt_mono_r).
  assert (2 ^ 51 < 2 ^ 1024) by (by apply Z.pow_lt_mono_r).
  rewrite round53_exact by lia.
  destruct (Z.leb_spec (2 ^ 1024) (Z.abs n)); [lia|done].
Qed.

Lemma double_sub_exact (x y : Z) :
  Z.abs (x - y) < 2 ^ 53 → double_sub x y = Finite (x - y).
Proof.
  intros Hxy. unfold double_sub. cbv zeta.
  assert (2 ^ 53 < 2 ^ 1025) by (by apply Z.pow_lt_mono_r).
  rewrite round53_exact by done.
  destruct (Z.leb_spec (2 ^ 1025) (Z.abs (x - y))); [lia|done].
Qed.

Lemma Qabs_half_lt (c c' total : Z) :
  (Qabs (inject_Z c - inject_Z total / 2)
   < Qabs (inject_Z c' - inject_Z total / 2))%Q
  ↔ Z.abs (2 * c - total) < Z.abs (2 * c' - total).
Proof. unfold Qlt. cbn. lia. Qed.

Lemma lt_min_diff_halves (c c' total : Z) :
  lt_min_diff (Qabs (inject_Z c - inject_Z total / 2))
    (Some (Qabs (inject_Z c' - inject_Z total / 2)))
  = (Z.abs (2 * c - total) <? Z.abs (2 * c' - total)).
Proof.
  unfold lt_min_diff.
  destruct (Qlt_le_dec _ _) as [Hlt|Hle]; symmetry.
  - apply Z.ltb_lt. by apply Qabs_half_lt.
  - apply Z.ltb_ge. apply Qle_not_lt in Hle.
    rewrite Qabs_half_lt in Hle. lia.
Qed.

Lemma split_loop_double_exact (total : Z) :
  Z.abs total ≤ 2 ^ 51 →
  ∀ (rest : list (symbol * Z)) i cumulative best_split exact float,
    weights_ahead_within (2 ^ 51) cumulative rest →
    same_min_diff total exact float →
    split_loop_double total rest i cumulative best_split float
    = Ok (split_loop (inject_Z total / 2) rest i cumulative best_split exact).
Proof.
  intros Htotal.
  assert (H53 : 3 * 2 ^ 51 < 2 ^ 53).
  { change (2 ^ 53) with (2 ^ 2 * 2 ^ 51). lia. }
  induction rest as [|it rest IH];
    intros i cum best exact float Hahead Hsame; [done|].
  destruct Hahead as [Hcum Hahead]. cbn [split_loop_double split_loop].
  rewrite float_of_int_exact by done. cbn [mbind res_bind].
  rewrite double_sub_exact by lia. cbn [double_abs].
  destruct exact as [d|], float as [h|[]]; try done.
  - destruct Hsame as (c & -> & ->).
    rewrite lt_min_diff_halves. cbn [double_lt].
    destruct (Z.abs (2 * (cum + it.2) - total) <? Z.abs (2 * c - total));
      apply IH; try done.
    + by exists (cum + it.2).
    + by exists c.
  - cbn [lt_min_diff double_lt negb]. apply IH; [done|].
    by exists (cum + it.2).
Qed.

Lemma weights_ahead_of_within (bound : Z) : ∀ (rest seen : list (symbol * Z)),
  weights_within bound (seen ++ rest) →
  weights_ahead_within bound (sum_freq seen) rest.
Proof.
  induction rest as [|it rest IH]; intros seen Hw; [done|].
  cbn [weights_ahead_within]. rewrite <- sum_freq_snoc. split.
  - specialize (Hw (S (length seen))).
    rewrite (cons_middle it seen rest), app_assoc in Hw.
    rewrite take_app_length' in Hw; [done|]. rewrite length_app. cbn. lia.
  - apply IH. by rewrite <- app_assoc.
Qed.

(** Within 2^51 the doubles are exact, and the loop on doubles returns what
    the exact loop returns. *)
Lemma shannon_fano_split_double_exact items :
  weights_within (2 ^ 51) items →
  shannon_fano_split_double items = Ok (shannon_fano_split items).
Proof.
  intros Hw. unfold shannon_fano_split_double, shannon_fano_split. cbv zeta.
  assert (Htotal : Z.abs (sum_freq items) ≤ 2 ^ 51).
  { specialize (Hw (length items)). by rewrite take_ge in Hw. }
  rewrite float_of_int_exact by done. cbn [mbind res_bind].
  rewrite (split_loop_double_exact (sum_freq items) Htotal items 0%nat 0 1 None);
    [done| |done].
  by apply (weights_ahead_of_within _ items []).
Qed.

(** C6, as the code has it: on two or more items whose cumulative weights
    stay within 2^51, where the doubles of [total / 2.0] and of
    [abs(cumulative - half)] are exact, the split index is the first index,
    scanning the split points 1..n left to right, at which the distance
    between the left partition's weight and half the total weight is
    minimal, clamped to the range [1, n-1]; with frequencies that are not
    negative the clamp changes nothing. *)
Theorem shannon_fano_split_double_first_minimum items :
  (2 ≤ length items)%nat →
  weights_within (2 ^ 51) items →
  let n := length items in
  ∃ b : nat,
    (1 ≤ b ≤ n)%nat ∧
    (∀ k, (1 ≤ k ≤ n)%nat → (split_diff items b <= split_diff items k)%Q) ∧
    (∀ k, (1 ≤ k < b)%nat → (split_diff items b < split_diff items k)%Q) ∧
    shannon_fano_split_double items
    = Ok (Z.max 1 (Z.min (Z.of_nat b) (Z.of_nat n - 1))) ∧
    1 ≤ Z.max 1 (Z.min (Z.of_nat b) (Z.of_nat n - 1)) ≤ Z.of_nat n - 1 ∧
    ((∀ it, it ∈ items → 0 ≤ it.2) →
     shannon_fano_split_double items = Ok (Z.of_nat b)).
Proof.
  intros Hn Hw n.
  destruct (shannon_fano_split_first_minimum items Hn)
    as (b & Hb & Hmin & Hfirst & Hsplit & Hrange & Hpos).
  fold n in Hb, Hmin, Hsplit, Hrange.
  exists b. rewrite shannon_fano_split_double_exact by done.
  split; [done|]. split; [done|]. split; [done|].
  split; [by rewrite Hsplit|]. split; [by rewrite <- Hsplit|].
  intros Hnonneg. by rewrite Hpos.
Qed.

(** *** Frequency analysis and the order of the Shannon-Fano items *)

Lemma count_symbol_keys c tbl :
  (count_symbol c tbl).*1 = if decide (c ∈ tbl.*1) then tbl.*1 else tbl.*1 ++ [c].
Proof.
  induction tbl as [|[k n] tbl IH]; cbn [count_symbol].
  - by rewrite decide_False by set_solver.
  - destruct (decide (k = c)) as [->|Hne]; cbn.
    + by rewrite decide_True by set_solver.
    + rewrite IH. destruct (decide (c ∈ tbl.*1)).
      * by rewrite decide_True by (by right).
      * by rewrite decide_False by (by intros [?|?]%elem_of_cons).
Qed.

Lemma filter_fresh_cons (seen : list symbol) c (l : list symbol) :
  c ∉ seen →
  filter (λ x, x ∉ seen) (c :: filter (λ x, x ≠ c) l)
  = c :: filter (λ x, x ∉ seen ++ [c]) l.
Proof.
  intros Hc. rewrite filter_cons_True by done. f_equal.
  induction l as [|x l IH]; [done|].
  destruct (decide (x = c)) as [->|Hne].
  - rewrite (filter_cons_False (λ x, x ≠ c)) by (intros ?; done).
    rewrite (filter_cons_False (λ x, x ∉ seen ++ [c])) by set_solver. done.
  - rewrite (filter_cons_True (λ x, x ≠ c)) by done.
    destruct (decide (x ∈ seen)).
    + rewrite filter_cons_False by (intros ?; done).
      rewrite (filter_cons_False (λ x, x ∉ seen ++ [c])) by set_solver. done.
    + rewrite filter_cons_True by done.
      rewrite (filter_cons_True (λ x, x ∉ seen ++ [c]))
        by (by intros [?|?%list_elem_of_singleton]%elem_of_app).
      by rewrite IH.
Qed.

Lemma filter_seen_cons (seen : list symbol) c (l : list symbol) :
  c ∈ seen →
  filter (λ x, x ∉ seen) (c :: filter (λ x, x ≠ c) l)
  = filter (λ x, x ∉ seen) l.
Proof.
  intros Hc. rewrite filter_cons_False by (intros ?; done).
  induction l as [|x l IH]; [done|].
  destruct (decide (x = c)) as [->|Hne].
  - rewrite (filter_cons_False (λ x, x ≠ c)) by (intros ?; done).
    by rewrite (filter_cons_False (λ x, x ∉ seen)) by (intros ?; done).
  - rewrite (filter_cons_True (λ x, x ≠ c)) by done.
    destruct (decide (x ∈ seen)).
    + by rewrite !(filter_cons_False (λ x, x ∉ seen)) by (intros ?; done).
    + rewrite !(filter_cons_True (λ x, x ∉ seen)) by done. by rewrite IH.
Qed.

Lemma count_loop_keys text : ∀ tbl,
  (foldl (λ tbl c, count_symbol c tbl) tbl text).*1
  = tbl.*1 ++ filter (λ x, x ∉ tbl.*1) (first_occurrences text).
Proof.
  induction text as [|c text IH]; intros tbl.
  - cbn. by rewrite app_nil_r.
  - cbn [foldl first_occurrences]. rewrite IH, count_symbol_keys.
    destruct (decide (c ∈ tbl.*1)) as [Hin|Hout].
    + by rewrite filter_seen_cons.
    + rewrite filter_fresh_cons by done. by rewrite <- app_assoc.
Qed.

Lemma analyze_frequencies_keys text :
  (analyze_frequencies text).*1 = first_occurrences text.
Proof.
  unfold analyze_frequencies. rewrite count_loop_keys. cbn.
  induction (first_occurrences text) as [|x l IH]; [done|].
  rewrite filter_cons_True by set_solver. by f_equal.
Qed.

Lemma insert_by_freq_perm (it : symbol * Z) items :
  insert_by_freq it items ≡ₚ it :: items.
Proof.
  induction items as [|y items IH]; cbn; [done|].
  destruct (decide (it.2 < y.2)); [|done].
  rewrite IH. apply perm_swap.
Qed.

Lemma insert_by_freq_sorted (it : symbol * Z) items :
  Sorted freq_ge items → Sorted freq_ge (insert_by_freq it items).
Proof.
  induction 1 as [|y items Hs IH Hhd]; cbn.
  - by repeat constructor.
  - destruct (decide (it.2 < y.2)) as [Hlt|Hge].
    + constructor; [done|].
      destruct Hhd as [|z items Hyz]; cbn.
      * constructor. unfold freq_ge. lia.
      * destruct (decide (it.2 < z.2)); constructor; unfold freq_ge in *; lia.
    + constructor; [by constructor|]. constructor. unfold freq_ge. lia.
Qed.

Lemma insert_by_freq_filter (it : symbol * Z) items (f : Z) :
  filter (λ x, x.2 = f) (insert_by_freq it items)
  = filter (λ x, x.2 = f) (it :: items).
Proof.
  induction items as [|y items IH]; cbn [insert_by_freq]; [done|].
  destruct (decide (it.2 < y.2)) as [Hlt|Hge]; [|done].
  destruct (decide (it.2 = f)) as [Hf|Hf].
  - rewrite (filter_cons_False _ y) by (cbn; lia).
    rewrite IH. rewrite !(filter_cons_True _ it) by done.
    by rewrite (filter_cons_False _ y) by (cbn; lia).
  - rewrite (filter_cons_False _ it (y :: items)) by done.
    destruct (decide (y.2 = f)).
    + rewrite !(filter_cons_True _ y) by done. rewrite IH.
      by rewrite (filter_cons_False _ it) by done.
    + rewrite !(filter_cons_False _ y) by done. rewrite IH.
      by rewrite (filter_cons_False _ it) by done.
Qed.

Lemma sorted_by_freq_perm items : sorted_by_freq items ≡ₚ items.
Proof.
  induction items as [|it items IH]; cbn; [done|].
  by rewrite insert_by_freq_perm, IH.
Qed.

(** C7, as the code has it: the items handed to the Shannon-Fano builder are
    the frequency table sorted by frequency, larger first; items of equal
    frequency stay in the order of the table, which is the order in which the
    symbols first occur in the text. *)
Theorem shannon_items_stable_order text :
  let tbl := analyze_frequencies text in
  let items := sorted_by_freq tbl in
  items ≡ₚ tbl ∧
  Sorted freq_ge items ∧
  (∀ f, filter (λ it, it.2 = f) items = filter (λ it, it.2 = f) tbl) ∧
  tbl.*1 = first_occurrences text.
Proof.
  intros tbl items. subst items.
  split; [|split; [|split]].
  - apply sorted_by_freq_perm.
  - induction tbl as [|it tbl IH]; cbn; [constructor|].
    by apply insert_by_freq_sorted.
  - intros f. induction tbl as [|it tbl IH]; cbn [sorted_by_freq foldr]; [done|].
    rewrite insert_by_freq_filter.
    destruct (decide (it.2 = f)).
    + rewrite !(filter_cons_True _ it) by done. f_equal. apply IH.
    + rewrite !(filter_cons_False _ it) by done. apply IH.
  - apply analyze_frequencies_keys.
Qed.

(** *** Both builders return full trees *)


Lemma shannon_fano_split_range items :
  (2 ≤ length items)%nat →
  1 ≤ shannon_fano_split items ≤ Z.of_nat (length items) - 1.
Proof. intros Hn. unfold shannon_fano_split. lia. Qed.

Lemma build_shannon_tree_full depth : ∀ items t,
  build_shannon_tree depth items = Ok t → full t.
Proof.
  induction depth as [|depth IH]; intros items t; cbn [build_shannon_tree];
    [done|].
  assert (Hrec : (l ← build_shannon_tree depth
                        (take (Z.to_nat (shannon_fano_split items)) items);
                  r ← build_shannon_tree depth
                        (drop (Z.to_nat (shannon_fano_split items)) items);
                  Ok (merged_dict (sum_freq items) l r)) = Ok t → full t).
  { destruct (build_shannon_tree depth (take _ items)) as [l|] eqn:Hl; [|done].
    destruct (build_shannon_tree depth (drop _ items)) as [r|] eqn:Hr; [|done].
    cbn. intros [= <-]. cbn. eauto. }
  destruct items as [|[c f] [|it items]]; try exact Hrec.
  by intros [= <-].
Qed.

Lemma build_shannon_tree_total depth : ∀ items,
  (1 ≤ length items ≤ depth)%nat → is_Ok (build_shannon_tree depth items).
Proof.
  induction depth as [|depth IH]; intros items Hlen; [lia|].
  destruct items as [|[c f] [|it items]]; [cbn in Hlen; lia|by eexists|].
  pose proof (shannon_fano_split_range ((c, f) :: it :: items)) as Hs.
  cbn [length] in Hs, Hlen. cbn [build_shannon_tree].
  set (split := Z.to_nat (shannon_fano_split ((c, f) :: it :: items))).
  assert (1 ≤ split ≤ S (length items))%nat as Hsplit by lia.
  destruct (IH (take split ((c, f) :: it :: items))) as [l ->].
  { rewrite length_take. cbn [length]. lia. }
  destruct (IH (drop split ((c, f) :: it :: items))) as [r ->].
  { rewrite length_drop. cbn [length]. lia. }
  by eexists.
Qed.

Lemma length_heappush (heap : list item) x :
  length (heappush heap x) = S (length heap).
Proof.
  induction heap as [|y heap IH]; cbn; [done|].
  destruct (item_lt x y); cbn; by rewrite ?IH.
Qed.

Lemma heappush_perm (heap : list item) x : heappush heap x ≡ₚ x :: heap.
Proof.
  induction heap as [|y heap IH]; cbn; [done|].
  destruct (item_lt x y); [done|]. rewrite IH. apply perm_swap.
Qed.

Lemma leaf_heap_perm ids tbl :
  leaf_heap ids tbl ≡ₚ (λ '(c, f), (f, id_char ids c, leaf_dict c f)) <$> tbl.
Proof.
  unfold leaf_heap.
  enough (Hgen : ∀ heap,
    foldl (λ heap '(c, f), heappush heap (f, id_char ids c, leaf_dict c f))
          heap tbl
    ≡ₚ heap ++ ((λ '(c, f), (f, id_char ids c, leaf_dict c f)) <$> tbl))
    by apply (Hgen []).
  induction tbl as [|[c f] tbl IH]; intros heap; cbn.
  - by rewrite app_nil_r.
  - rewrite IH, heappush_perm. apply (Permutation_middle heap).
Qed.

(** The loop of [build_huffman_tree] as an invariant rule: a property of the
    heap kept by one merge holds of the heap the loop ends with, which has
    one item (none if it started empty); [length heap - 1] iterations are
    enough. *)
Lemma merge_loop_invariant ids (I : nat → list item → Prop) :
  (∀ k f1 i1 l f2 i2 r heap,
     I k ((f1, i1, l) :: (f2, i2, r) :: heap) →
     I (S k) (heappush heap (f1 + f2, id_merged ids k, merged_dict (f1 + f2) l r))) →
  ∀ steps k heap,
    (length heap ≤ S steps)%nat → I k heap →
    ∃ k' heap', merge_loop ids steps k heap = Some heap' ∧
      length heap' = Nat.min 1 (length heap) ∧ I k' heap'.
Proof.
  intros Hstep. induction steps as [|steps IH]; intros k heap Hlen HI.
  - destruct heap as [|x [|y heap]]; [| |cbn in Hlen; lia].
    + by exists k, [].
    + exists k, [x]. by destruct x as [[? ?] ?].
  - destruct heap as [|[[f1 i1] l] [|[[f2 i2] r] heap]].
    + by exists k, [].
    + by exists k, [(f1, i1, l)].
    + cbn [merge_loop].
      destruct (IH (S k) (heappush heap
                  (f1 + f2, id_merged ids k, merged_dict (f1 + f2) l r)))
        as (k' & heap' & Hrun & Hlen' & HI').
      * rewrite length_heappush. cbn in Hlen. lia.
      * by apply (Hstep k f1 i1 l f2 i2 r heap).
      * exists k', heap'. split; [done|]. split; [|done].
        rewrite Hlen', length_heappush. cbn. lia.
Qed.

Lemma merge_loop_terminates ids (heap : list item) :
  ∃ heap', merge_loop ids (length heap) 0 heap = Some heap' ∧
           length heap' = Nat.min 1 (length heap).
Proof.
  destruct (merge_loop_invariant ids (λ _ _, True)) with
    (steps := length heap) (k := 0%nat) (heap := heap)
    as (k' & heap' & Hrun & Hlen & _); eauto.
Qed.

Lemma build_huffman_tree_invariant ids tbl (P : node → Prop) :
  (∀ c f, (c, f) ∈ tbl → P (leaf_dict c f)) →
  (∀ f l r, P l → P r → P (merged_dict f l r)) →
  tbl ≠ [] →
  ∃ t, build_huffman_tree ids tbl = Some t ∧ P t.
Proof.
  intros Hleaf Hmerged Hne. unfold build_huffman_tree.
  destruct (merge_loop_invariant ids (λ _ heap, Forall (λ x : item, P x.2) heap))
    with (steps := length (leaf_heap ids tbl)) (k := 0%nat)
         (heap := leaf_heap ids tbl)
    as (k' & heap' & Hrun & Hlen & HP).
  - intros k f1 i1 l f2 i2 r heap HI.
    rewrite heappush_perm.
    inversion_clear HI as [|? ? Hl HI']. inversion_clear HI' as [|? ? Hr HI''].
    constructor; [by apply Hmerged|done].
  - lia.
  - rewrite leaf_heap_perm. apply Forall_fmap, Forall_forall.
    intros [c f] Hin. by apply Hleaf.
  - rewrite Hrun.
    assert (length (leaf_heap ids tbl) = length tbl) as Hl
      by (by rewrite leaf_heap_perm, length_fmap).
    rewrite Hl in Hlen. destruct tbl; [done|]. cbn [length Nat.min] in Hlen.
    destruct heap' as [|x heap']; [done|].
    exists x.2. split; [done|]. by inversion HP.
Qed.


(** *** Codes are paths, and paths to leaves are prefix-free *)

Lemma walk_extend nd : ∀ p k a b,
  walk nd p = Some a → walk nd (p ++ k) = Some b → k = [] ∧ a = b.
Proof.
  intros p. revert nd. induction p as [|bit p IH]; intros nd k a b; [by cbn|].
  cbn [walk app]. destruct (child bit nd) as [ch|]; [|done].
  destruct (node_char ch) as [c|].
  - destruct p as [|bit' p]; [|done]. cbn [app].
    destruct k; [|done]. by intros [= ->] [= ->].
  - apply IH.
Qed.

Lemma generate_codes_walk : ∀ t prefix c code,
  node_char t = None →
  generate_codes t prefix !! c = Some code →
  ∃ p, code = prefix ++ p ∧ walk t p = Some c.
Proof.
  fix IH 1. intros [ch f l r] prefix c code Hch. cbn in Hch. subst ch.
  cbn [generate_codes].
  assert (Hchild : ∀ bit (sub : node),
    child bit (Dict None f l r) = Some sub →
    generate_codes sub (prefix ++ [bit]) !! c = Some code →
    (∀ prefix c code, node_char sub = None →
       generate_codes sub prefix !! c = Some code →
       ∃ p, code = prefix ++ p ∧ walk sub p = Some c) →
    ∃ p, code = prefix ++ p ∧ walk (Dict None f l r) p = Some c).
  { intros bit sub Hsub Hlook IHsub.
    destruct sub as [[c'|] f' l' r'] eqn:Esub.
    - cbn [generate_codes] in Hlook.
      assert (Hpre : match prefix ++ [bit] with
                     | [] => [false] | _ => prefix ++ [bit] end
                     = prefix ++ [bit]) by (by destruct prefix).
      rewrite Hpre in Hlook. apply lookup_singleton_Some in Hlook as [-> <-].
      exists [bit]. split; [done|]. cbn [walk]. by rewrite Hsub.
    - destruct (IHsub (prefix ++ [bit]) c code) as (p & -> & Hp); [done|done|].
      exists (bit :: p). split; [by rewrite <- app_assoc|].
      cbn [walk]. by rewrite Hsub. }
  assert (Hleft :
    match l with
    | Some l => generate_codes l (prefix ++ [false]) ∪ ∅
    | None => ∅
    end !! c = Some code →
    ∃ p, code = prefix ++ p ∧ walk (Dict None f l r) p = Some c).
  { destruct l as [l|]; [|by rewrite lookup_empty].
    rewrite lookup_union_Some_raw, lookup_empty. intros [Hl|[_ ?]]; [|done].
    apply (Hchild false l); [done|done|]. apply IH. }
  destruct r as [r|]; [|exact Hleft].
  rewrite lookup_union_Some_raw. intros [Hr|[_ Hl]]; [|by apply Hleft].
  apply (Hchild true r); [done|done|]. apply IH.
Qed.

(** C4: in the code table generated from a tree, the codes of two different
    symbols are different and neither is a prefix of the other. *)
Theorem generate_codes_prefix_free t (a b : symbol) (code_a code_b : bits) :
  generate_codes t [] !! a = Some code_a →
  generate_codes t [] !! b = Some code_b →
  a ≠ b →
  ¬ code_a `prefix_of` code_b ∧ ¬ code_b `prefix_of` code_a ∧ code_a ≠ code_b.
Proof.
  intros Ha Hb Hne.
  destruct (node_char t) as [c|] eqn:Hch.
  - destruct t as [ch f l r]. cbn in Hch. subst ch.
    cbn [generate_codes] in Ha, Hb.
    apply lookup_singleton_Some in Ha as [-> _].
    by apply lookup_singleton_Some in Hb as [-> _].
  - apply generate_codes_walk in Ha as (pa & -> & Hpa); [|done].
    apply generate_codes_walk in Hb as (pb & -> & Hpb); [|done].
    cbn [app].
    assert (Hno : ∀ x y p q, x ≠ y → walk t p = Some x → walk t q = Some y →
                             ¬ p `prefix_of` q).
    { intros x y p q Hxy Hp Hq [k ->].
      by destruct (walk_extend t p k x y Hp Hq) as [_ ?]. }
    split; [by apply (Hno a b)|].
    split; [apply (Hno b a); [congruence|done|done]|].
    intros ->. congruence.
Qed.

(** *** Decoding *)

Lemma decode_loop_walk tree : ∀ p nd c rest result,
  walk nd p = Some c →
  decode_loop tree (p ++ rest) nd result
  = decode_loop tree rest tree (result ++ [c]).
Proof.
  induction p as [|bit p IH]; intros nd c rest result; [by cbn|].
  cbn [walk decode_loop app]. unfold child.
  destruct (if bit then node_right nd else node_left nd) as [ch|]; [|done].
  cbn [subscript mbind res_bind].
  destruct (node_char ch) as [c'|].
  - destruct p; [|done]. by intros [= ->].
  - apply IH.
Qed.

Lemma decode_loop_descend tree : ∀ p nd nd' result,
  descend nd p = Some nd' →
  decode_loop tree p nd result = Ok (result, nd').
Proof.
  induction p as [|bit p IH]; intros nd nd' result.
  - cbn. by intros [= ->].
  - cbn [descend decode_loop]. unfold child.
    destruct (if bit then node_right nd else node_left nd) as [ch|]; [|done].
    cbn [subscript mbind res_bind].
    destruct (node_char ch) as [c'|]; [done|]. apply IH.
Qed.

(** Decoding a sequence of code words, each a path from the root to a leaf. *)
Lemma decode_loop_code_words tree : ∀ (words : list (symbol * bits)) rest result,
  Forall (λ w, walk tree w.2 = Some w.1) words →
  decode_loop tree (concat words.*2 ++ rest) tree result
  = decode_loop tree rest tree (result ++ words.*1).
Proof.
  induction words as [|[c p] words IH]; intros rest result Hall.
  - cbn. by rewrite app_nil_r.
  - inversion_clear Hall as [|? ? Hw Hall']. cbn in Hw.
    cbn [fmap list_fmap concat snd fst]. rewrite <- app_assoc.
    rewrite (decode_loop_walk tree p tree c) by done.
    rewrite IH by done. by rewrite <- app_assoc.
Qed.

Lemma strip_padding_app (bs pad : bits) :
  strip_padding (bs ++ pad) (length pad) = bs.
Proof.
  unfold strip_padding. destruct (decide (0 < length pad)%nat).
  - rewrite length_app. replace (length bs + length pad - length pad)%nat
      with (length bs) by lia. apply take_app_length.
  - destruct pad; [by rewrite app_nil_r|cbn in *; lia].
Qed.

Lemma child_size bit nd ch : child bit nd = Some ch → (size ch < size nd)%nat.
Proof.
  destruct nd as [c f l r], bit; cbn; intros ->; cbn; lia.
Qed.

Lemma descend_below : ∀ p nd nd',
  p ≠ [] → descend nd p = Some nd' →
  (size nd' < size nd)%nat ∧ node_char nd' = None.
Proof.
  induction p as [|bit p IH]; intros nd nd' Hp; [done|].
  cbn [descend]. destruct (child bit nd) as [ch|] eqn:Hch; [|done].
  apply child_size in Hch.
  destruct (node_char ch) as [c|] eqn:Hchar; [done|].
  destruct p as [|bit' p].
  - cbn. intros [= <-]. auto.
  - intros Hnd. destruct (IH ch nd') as [Hsize Hnone]; [done|done|].
    split; [lia|done].
Qed.

(** C3, as the code has it: when the bits run out in the middle of a path
    (after whole code words, a non-empty partial path [q] that stops on a
    dict [nd] below the root, without ['char']), [decode_bits] raises nothing
    and returns the symbols of the whole code words, exactly as if [q] were
    absent. *)
Theorem decode_bits_partial_path_is_dropped tree
    (words : list (symbol * bits)) (q pad : bits) nd :
  Forall (λ w, walk tree w.2 = Some w.1) words →
  q ≠ [] → descend tree q = Some nd →
  decode_loop tree (concat words.*2 ++ q) tree [] = Ok (words.*1, nd) ∧
  nd ≠ tree ∧ node_char nd = None ∧
  decode_bits (concat words.*2 ++ q ++ pad) tree (length pad) = Ok words.*1 ∧
  decode_bits (concat words.*2 ++ pad) tree (length pad) = Ok words.*1.
Proof.
  intros Hwords Hq Hnd.
  assert (Hrun : decode_loop tree (concat words.*2 ++ q) tree []
                 = Ok (words.*1, nd)).
  { rewrite decode_loop_code_words by done. cbn [app].
    by apply decode_loop_descend. }
  split; [done|].
  destruct (descend_below q tree nd Hq Hnd) as [Hsize Hnone].
  split; [intros ->; lia|]. split; [done|].
  unfold decode_bits. split.
  - by rewrite app_assoc, strip_padding_app, Hrun.
  - rewrite strip_padding_app.
    rewrite <- (app_nil_r (concat words.*2)).
    by rewrite decode_loop_code_words.
Qed.

(** *** Empty input *)

Lemma build_shannon_tree_empty depth :
  build_shannon_tree depth ([] : freq_table) = Raise RecursionError.
Proof.
  induction depth as [|depth IH]; [done|].
  cbn [build_shannon_tree].
  replace (Z.to_nat (shannon_fano_split ([] : freq_table))) with 1%nat
    by (by vm_compute).
  cbn [take]. by rewrite IH.
Qed.

(** C2 on the code: compressing the empty text raises in both compressors
    (unbounded recursion in the Shannon-Fano builder, whatever the recursion
    limit; [generate_codes(None)] in the Huffman path), while the path named
    arithmetic coding has the guard and returns the empty payload. *)
Theorem compress_empty_text (depth : nat) (ids : identity) :
  shannon_fano_compress depth ([] : list symbol) = Raise RecursionError ∧
  huffman_compress ids ([] : list symbol) = Raise TypeError ∧
  arithmetic_compress ids ([] : list symbol) = Ok ([], None, 0%nat).
Proof.
  split; [|by split].
  unfold shannon_fano_compress. cbn [analyze_frequencies foldl sorted_by_freq foldr].
  by rewrite build_shannon_tree_empty.
Qed.

(** Decoding any bit, padding apart, with a tree that is a single leaf dict
    fails on the missing key. *)
Lemma decode_bits_leaf_tree (c : symbol) (f : Z) (bs : bits) (padding : nat) :
  strip_padding bs padding ≠ [] →
  decode_bits bs (leaf_dict c f) padding = Raise KeyError.
Proof.
  unfold decode_bits. destruct (strip_padding bs padding) as [|[] ?]; done.
Qed.

(** *** Bytes and bits *)

Lemma format_08b_int2 (byte : bits) :
  length byte = 8%nat → format_08b (int2 byte) = byte.
Proof.
  intros Hlen.
  do 9 (destruct byte as [|? byte]; try done).
  repeat match goal with x : bool |- _ => destruct x end; reflexivity.
Qed.

Lemma pack_bits_cons (bs : bits) (n : nat) :
  length bs = (8 * S n)%nat →
  pack_bits bs = int2 (take 8 bs) :: pack_bits (drop 8 bs).
Proof.
  intros Hlen. unfold pack_bits, range_step.
  rewrite length_drop, Hlen.
  replace ((8 * S n + 8 - 1) / 8)%nat with (S n) by lia.
  replace ((8 * S n - 8 + 8 - 1) / 8)%nat with n by lia.
  cbn [seq fmap list_fmap]. f_equal.
  rewrite <- (fmap_S_seq 0 n), <- !list_fmap_compose.
  apply list_fmap_ext. intros i k _. cbn.
  rewrite drop_drop. do 3 f_equal. lia.
Qed.

Lemma bytes_to_bits_pack_bits (n : nat) : ∀ bs : bits,
  length bs = (8 * n)%nat → bytes_to_bits (pack_bits bs) = bs.
Proof.
  induction n as [|n IH]; intros bs Hlen.
  - by destruct bs.
  - rewrite (pack_bits_cons bs n) by done. unfold bytes_to_bits.
    cbn [fmap list_fmap concat].
    rewrite format_08b_int2 by (rewrite length_take; lia).
    fold (bytes_to_bits (pack_bits (drop 8 bs))).
    rewrite IH by (rewrite length_drop; lia).
    apply take_drop.
Qed.

(** *** Round trip on a tree whose root is a merged dict *)

Lemma generate_codes_covers : ∀ t prefix c,
  c ∈ leaves t → is_Some (generate_codes t prefix !! c).
Proof.
  fix IH 1. intros [[c'|] f l r] prefix c; cbn [leaves generate_codes].
  - intros ->%list_elem_of_singleton. rewrite lookup_singleton_eq. eauto.
  - intros [Hl|Hr]%elem_of_app.
    + assert (is_Some (match l with
                       | Some l => generate_codes l (prefix ++ [false]) ∪ ∅
                       | None => ∅
                       end !! c)) as Hleft.
      { destruct l as [l|]; [|by apply elem_of_nil in Hl].
        apply lookup_union_is_Some. left. by apply IH. }
      destruct r as [r|]; [|done]. apply lookup_union_is_Some. by right.
    + destruct r as [r|]; [|by apply elem_of_nil in Hr].
      apply lookup_union_is_Some. left. by apply IH.
Qed.

Lemma join_codes_words text code_table :
  (∀ c, c ∈ text → is_Some (code_table !! c)) →
  ∃ words : list (symbol * bits),
    words.*1 = text ∧ join_codes text code_table = Ok (concat words.*2) ∧
    Forall (λ w, code_table !! w.1 = Some w.2) words.
Proof.
  induction text as [|c text IH]; intros Hcov.
  - by exists [].
  - destruct (Hcov c) as [code Hc]; [left|].
    destruct IH as (words & Hw & Hj & Hall); [intros; apply Hcov; by right|].
    exists ((c, code) :: words). cbn [join_codes]. rewrite Hc, Hj.
    split; [by rewrite fmap_cons, Hw|]. split; [done|]. by constructor.
Qed.

Lemma encode_decode_round_trip tree text :
  node_char tree = None →
  (∀ c, c ∈ text → c ∈ leaves tree) →
  ∃ data padding,
    encode_text text (generate_codes tree []) = Ok (data, padding) ∧
    decode_bits (bytes_to_bits data) tree padding = Ok text.
Proof.
  intros Hroot Hcov.
  destruct (join_codes_words text (generate_codes tree []))
    as (words & Hw & Hj & Hall).
  { intros c Hc. by apply generate_codes_covers, Hcov. }
  unfold encode_text. rewrite Hj. eexists _, _. split; [done|].
  set (bs := concat words.*2).
  destruct (padding_of_spec (length bs)) as (_ & Hmod & _ & Hdiv).
  rewrite (bytes_to_bits_pack_bits ((length bs + 7) / 8)).
  2:{ rewrite length_app, length_replicate. lia. }
  unfold decode_bits.
  rewrite <- (length_replicate (padding_of (length bs)) false) at 2.
  rewrite strip_padding_app. subst bs.
  rewrite <- (app_nil_r (concat words.*2)), decode_loop_code_words.
  - cbn. by rewrite Hw.
  - eapply Forall_impl; [exact Hall|]. intros [c code] Hlook. cbn in *.
    apply generate_codes_walk in Hlook as (p & -> & Hp); done.
Qed.

(** *** Round trip through either compressor *)

Lemma elem_of_first_occurrences text c : c ∈ first_occurrences text ↔ c ∈ text.
Proof.
  induction text as [|x text IH]; cbn [first_occurrences]; [done|].
  rewrite !elem_of_cons, list_elem_of_filter, IH.
  destruct (decide (c = x)); tauto.
Qed.

Lemma two_elements_length {A} (l : list A) (a b : A) :
  a ∈ l → b ∈ l → a ≠ b → (2 ≤ length l)%nat.
Proof.
  destruct l as [|x [|y l]]; cbn; [by intros ?%elem_of_nil| |lia].
  intros ->%list_elem_of_singleton ->%list_elem_of_singleton. done.
Qed.

Lemma build_shannon_tree_leaves depth : ∀ items t,
  build_shannon_tree depth items = Ok t → leaves t = items.*1.
Proof.
  induction depth as [|depth IH]; intros items t; cbn [build_shannon_tree];
    [done|].
  assert (Hrec : (l ← build_shannon_tree depth
                        (take (Z.to_nat (shannon_fano_split items)) items);
                  r ← build_shannon_tree depth
                        (drop (Z.to_nat (shannon_fano_split items)) items);
                  Ok (merged_dict (sum_freq items) l r)) = Ok t →
                 leaves t = items.*1).
  { destruct (build_shannon_tree depth (take _ items)) as [l|] eqn:Hl; [|done].
    destruct (build_shannon_tree depth (drop _ items)) as [r|] eqn:Hr; [|done].
    cbn. intros [= <-]. cbn [leaves merged_dict].
    rewrite (IH _ _ Hl), (IH _ _ Hr), <- fmap_app. by rewrite take_drop. }
  destruct items as [|[c f] [|it items]]; try exact Hrec.
  by intros [= <-].
Qed.

Lemma build_shannon_tree_root depth items t :
  (2 ≤ length items)%nat →
  build_shannon_tree depth items = Ok t → node_char t = None.
Proof.
  destruct depth as [|depth]; [done|].
  destruct items as [|[c f] [|it items]]; cbn [length]; [lia|lia|].
  intros _. cbn [build_shannon_tree].
  destruct (build_shannon_tree depth (take _ _)) as [l|]; [|done].
  destruct (build_shannon_tree depth (drop _ _)) as [r|]; [|done].
  by intros [= <-].
Qed.

Lemma build_huffman_tree_heap_rule ids tbl (I : list item → Prop) :
  (∀ k f1 i1 l f2 i2 r heap,
     I ((f1, i1, l) :: (f2, i2, r) :: heap) →
     I (heappush heap (f1 + f2, id_merged ids k, merged_dict (f1 + f2) l r))) →
  I (leaf_heap ids tbl) → tbl ≠ [] →
  ∃ x, build_huffman_tree ids tbl = Some x.2 ∧ I [x].
Proof.
  intros Hstep Hinit Hne. unfold build_huffman_tree.
  destruct (merge_loop_invariant ids (λ _, I)) with
    (steps := length (leaf_heap ids tbl)) (k := 0%nat)
    (heap := leaf_heap ids tbl) as (k' & heap' & Hrun & Hlen & HI);
    [done|lia|done|].
  rewrite Hrun.
  assert (length (leaf_heap ids tbl) = length tbl) as Hl
    by (by rewrite leaf_heap_perm, length_fmap).
  rewrite Hl in Hlen. destruct tbl; [done|]. cbn [length Nat.min] in Hlen.
  destruct heap' as [|x [|? ?]]; [done| |done]. by exists x.
Qed.

Lemma build_huffman_tree_covers ids tbl :
  tbl ≠ [] →
  ∃ t, build_huffman_tree ids tbl = Some t ∧ ∀ c, c ∈ tbl.*1 → c ∈ leaves t.
Proof.
  intros Hne.
  destruct (build_huffman_tree_heap_rule ids tbl
    (λ heap, ∀ c, c ∈ tbl.*1 → ∃ x : item, x ∈ heap ∧ c ∈ leaves x.2))
    as (x & Hx & HI); [| |done|].
  - intros k f1 i1 l f2 i2 r heap HI c Hc.
    destruct (HI c Hc) as (x & Hx & Hleaf).
    setoid_rewrite heappush_perm.
    apply elem_of_cons in Hx as [->|Hx].
    { eexists. split; [by left|]. cbn. apply elem_of_app. by left. }
    apply elem_of_cons in Hx as [->|Hx].
    { eexists. split; [by left|]. cbn. apply elem_of_app. by right. }
    exists x. split; [by right|done].
  - intros c Hc. setoid_rewrite leaf_heap_perm.
    apply list_elem_of_fmap in Hc as ([c' f] & -> & Hin).
    exists (f, id_char ids c', leaf_dict c' f). split; [|by left].
    apply list_elem_of_fmap. by exists (c', f).
  - exists x.2. split; [done|]. intros c Hc.
    destruct (HI c Hc) as (y & ->%list_elem_of_singleton & Hleaf). done.
Qed.

Lemma two_leaves_root t (a b : symbol) :
  a ∈ leaves t → b ∈ leaves t → a ≠ b → node_char t = None.
Proof.
  destruct t as [[c|] f l r]; [|done]. cbn.
  by intros ->%list_elem_of_singleton ->%list_elem_of_singleton.
Qed.

Lemma compress_decompress_two_symbols text (a b : symbol) (depth : nat) ids :
  a ∈ text → b ∈ text → a ≠ b →
  (length (first_occurrences text) ≤ depth)%nat →
  (∃ data tree padding code_table,
     shannon_fano_compress depth text = Ok (data, tree, padding, code_table) ∧
     shannon_fano_decompress data tree padding = Ok text) ∧
  (∃ data tree padding code_table,
     huffman_compress ids text = Ok (data, Some tree, padding, code_table) ∧
     huffman_decompress data tree padding = Ok text).
Proof.
  intros Ha Hb Hab Hdepth.
  pose proof (analyze_frequencies_keys text) as Hkeys.
  pose proof (sorted_by_freq_perm (analyze_frequencies text)) as Hperm.
  set (tbl := analyze_frequencies text) in *.
  assert (Hin : ∀ c, c ∈ text → c ∈ tbl.*1).
  { intros c Hc. rewrite Hkeys. by apply elem_of_first_occurrences. }
  split.
  - unfold shannon_fano_compress. fold tbl.
    set (items := sorted_by_freq tbl) in *.
    assert (Hlen : (2 ≤ length items ≤ depth)%nat).
    { rewrite Hperm, <- (length_fmap fst tbl), Hkeys. split; [|done].
      apply (two_elements_length _ a b); [| |done];
        by apply elem_of_first_occurrences. }
    destruct (build_shannon_tree_total depth items) as [tree Htree]; [lia|].
    rewrite Htree. cbn [mbind res_bind].
    destruct (encode_decode_round_trip tree text) as (data & padding & He & Hd).
    { apply (build_shannon_tree_root depth items); [lia|done]. }
    { intros c Hc. rewrite (build_shannon_tree_leaves _ _ _ Htree), Hperm.
      by apply Hin. }
    rewrite He. by exists data, tree, padding, (generate_codes tree []).
  - unfold huffman_compress. fold tbl.
    destruct (build_huffman_tree_covers ids tbl) as (tree & Htree & Hcov).
    { intros Hnil. apply Hin in Ha. rewrite Hnil in Ha. by apply elem_of_nil in Ha. }
    rewrite Htree. cbn [generate_codes_of mbind res_bind].
    destruct (encode_decode_round_trip tree text) as (data & padding & He & Hd).
    { apply (two_leaves_root tree a b); auto. }
    { auto. }
    rewrite He. by exists data, tree, padding, (generate_codes tree []).
Qed.

(** X5: Round trip where the code achieves it: a text with at least
    two different symbols is compressed without error by both compressors
    (Shannon-Fano: given a recursion depth of the number of its distinct
    symbols) and decompresses to itself. *)
Theorem round_trip_two_symbols text (a b : symbol) (depth : nat) ids :
  a ∈ text → b ∈ text → a ≠ b →
  (length (first_occurrences text) ≤ depth)%nat →
  (∃ data tree padding code_table,
     shannon_fano_compress depth text = Ok (data, tree, padding, code_table) ∧
     shannon_fano_decompress data tree padding = Ok text) ∧
  (∃ data tree padding code_table,
     huffman_compress ids text = Ok (data, Some tree, padding, code_table) ∧
     huffman_decompress data tree padding = Ok text).
Proof. apply compress_decompress_two_symbols. Qed.

(** *** A text of one repeated symbol *)

Lemma analyze_frequencies_replicate (c : symbol) (n : nat) :
  analyze_frequencies (replicate (S n) c) = [(c, Z.of_nat (S n))].
Proof.
  unfold analyze_frequencies. cbn [replicate foldl count_symbol].
  enough (Hgen : ∀ m k, foldl (λ tbl c, count_symbol c tbl) [(c, k)] (replicate m c)
                        = [(c, k + Z.of_nat m)]).
  { rewrite Hgen. do 2 f_equal. lia. }
  induction m as [|m IH]; intros k; cbn [replicate foldl count_symbol].
  - do 2 f_equal. lia.
  - rewrite decide_True by done. rewrite IH. do 2 f_equal. lia.
Qed.

Lemma join_codes_replicate (c : symbol) (code : bits) (n : nat) :
  join_codes (replicate n c) {[ c := code ]}
  = Ok (concat (replicate n code)).
Proof.
  induction n as [|n IH]; [done|].
  cbn [replicate join_codes]. by rewrite lookup_singleton_eq, IH.
Qed.

Lemma encode_decode_single_leaf (c : symbol) (f : Z) (n : nat) :
  ∃ data padding,
    encode_text (replicate (S n) c) {[ c := [false] ]} = Ok (data, padding) ∧
    decode_bits (bytes_to_bits data) (leaf_dict c f) padding = Raise KeyError.
Proof.
  unfold encode_text. rewrite join_codes_replicate.
  eexists _, _. split; [done|].
  set (bs := concat (replicate (S n) [false])).
  destruct (padding_of_spec (length bs)) as (_ & Hmod & _ & Hdiv).
  rewrite (bytes_to_bits_pack_bits ((length bs + 7) / 8)).
  2:{ rewrite length_app, length_replicate. lia. }
  apply decode_bits_leaf_tree.
  rewrite <- (length_replicate (padding_of (length bs)) false) at 2.
  by rewrite strip_padding_app.
Qed.

(** C1 on the code: for a text that repeats one symbol, both compressors
    return the single leaf dict as the tree and the code table mapping the
    symbol to ["0"], and decompressing what they return raises [KeyError]:
    the leaf dict has no ['left']. *)
Theorem single_symbol_round_trip_raises (c : symbol) (n depth : nat) ids :
  let text := replicate (S n) c in
  let tree := leaf_dict c (Z.of_nat (S n)) in
  (∃ data padding,
     shannon_fano_compress (S depth) text
       = Ok (data, tree, padding, {[ c := [false] ]}) ∧
     shannon_fano_decompress data tree padding = Raise KeyError) ∧
  (∃ data padding,
     huffman_compress ids text
       = Ok (data, Some tree, padding, {[ c := [false] ]}) ∧
     huffman_decompress data tree padding = Raise KeyError).
Proof.
  intros text tree.
  destruct (encode_decode_single_leaf c (Z.of_nat (S n)) n)
    as (data & padding & He & Hd).
  split; exists data, padding.
  - unfold shannon_fano_compress. subst text.
    rewrite analyze_frequencies_replicate.
    cbn [sorted_by_freq foldr insert_by_freq build_shannon_tree mbind res_bind].
    cbn [generate_codes leaf_dict]. fold (leaf_dict c (Z.of_nat (S n))).
    by rewrite He.
  - unfold huffman_compress. subst text.
    rewrite analyze_frequencies_replicate.
    unfold build_huffman_tree.
    cbn [leaf_heap foldl heappush length merge_loop snd].
    cbn [generate_codes_of generate_codes leaf_dict mbind res_bind].
    fold (leaf_dict c (Z.of_nat (S n))).
    by rewrite He.
Qed.

(** *** The path named arithmetic coding *)



(** *** Tie-breaking in the Huffman heap *)

Lemma heappush_newest (heap : list item) (x : item) :
  Forall (λ y : item, y.1.2 < x.1.2) heap →
  content <$> heappush heap x = push_by_freq (content <$> heap) (content x).
Proof.
  induction 1 as [|y heap Hy Hall IH]; [done|].
  cbn [heappush fmap list_fmap push_by_freq]. unfold item_lt.
  replace (x.1.2 <? y.1.2) with false by (symmetry; apply Z.ltb_ge; lia).
  rewrite andb_false_r, orb_false_r. cbn [content fst].
  destruct (x.1.1 <? y.1.1); [done|].
  cbn [fmap list_fmap]. f_equal. apply IH.
Qed.

Lemma merge_loop_content ids1 ids2 : ∀ steps k (heap1 heap2 : list item),
  (∀ k k', (k < k')%nat → id_merged ids1 k < id_merged ids1 k') →
  (∀ k k', (k < k')%nat → id_merged ids2 k < id_merged ids2 k') →
  Forall (λ y : item, y.1.2 < id_merged ids1 k) heap1 →
  Forall (λ y : item, y.1.2 < id_merged ids2 k) heap2 →
  content <$> heap1 = content <$> heap2 →
  (λ heap : list item, content <$> heap) <$> merge_loop ids1 steps k heap1
  = (λ heap : list item, content <$> heap) <$> merge_loop ids2 steps k heap2.
Proof.
  intros steps k heap1 heap2 Hup1 Hup2. revert k heap1 heap2.
  induction steps as [|steps IH]; intros k heap1 heap2 Hold1 Hold2 Hsame.
  - destruct heap1 as [|[[f1 i1] l1] [|[[f2 i2] r1] heap1]];
      destruct heap2 as [|[[g1 j1] l2] [|[[g2 j2] r2] heap2]];
      try done; cbn in *; by rewrite Hsame.
  - destruct heap1 as [|[[f1 i1] l1] [|[[f2 i2] r1] heap1]];
      destruct heap2 as [|[[g1 j1] l2] [|[[g2 j2] r2] heap2]];
      try done; try (cbn in *; by rewrite Hsame).
    cbn [merge_loop]. cbn in Hsame.
    injection Hsame as -> -> -> -> Hrest.
    inversion_clear Hold1 as [|? ? _ Hold1']. inversion_clear Hold1' as [|? ? _ Ha].
    inversion_clear Hold2 as [|? ? _ Hold2']. inversion_clear Hold2' as [|? ? _ Hb].
    apply IH.
    + rewrite heappush_perm. constructor; [cbn; apply Hup1; lia|].
      eapply Forall_impl; [exact Ha|]. intros y Hy. cbn in *.
      specialize (Hup1 k (S k)). lia.
    + rewrite heappush_perm. constructor; [cbn; apply Hup2; lia|].
      eapply Forall_impl; [exact Hb|]. intros y Hy. cbn in *.
      specialize (Hup2 k (S k)). lia.
    + rewrite !heappush_newest by done. by rewrite Hrest.
Qed.

Lemma leaf_heap_content ids : ∀ (rest : freq_table) (heap : list item),
  StronglySorted Z.lt (id_char ids <$> rest.*1) →
  Forall (λ y : item, Forall (λ c, y.1.2 < id_char ids c) rest.*1) heap →
  content <$> foldl (λ heap '(c, f), heappush heap (f, id_char ids c, leaf_dict c f))
                    heap rest
  = foldl (λ heap '(c, f), push_by_freq heap (f, leaf_dict c f))
          (content <$> heap) rest.
Proof.
  induction rest as [|[c f] rest IH]; intros heap Hsorted Hold; [done|].
  cbn [foldl]. cbn in Hsorted. inversion_clear Hsorted as [|? ? Hs Hc].
  rewrite IH; [| done |].
  - rewrite heappush_newest; [done|].
    eapply Forall_impl; [exact Hold|]. intros y Hy. cbn in *.
    by inversion Hy.
  - rewrite heappush_perm. constructor.
    + rewrite Forall_fmap in Hc. exact Hc.
    + eapply Forall_impl; [exact Hold|]. intros y Hy. cbn in *.
      by inversion Hy.
Qed.

Lemma build_huffman_tree_order_only ids1 ids2 tbl :
  creation_ordered ids1 tbl → creation_ordered ids2 tbl →
  build_huffman_tree ids1 tbl = build_huffman_tree ids2 tbl.
Proof.
  intros (Hs1 & Hc1 & Hm1) (Hs2 & Hc2 & Hm2).
  assert (Hold : ∀ ids, (∀ c k, c ∈ tbl.*1 → id_char ids c < id_merged ids k) →
            Forall (λ y : item, y.1.2 < id_merged ids 0) (leaf_heap ids tbl)).
  { intros ids Hc. rewrite leaf_heap_perm. apply Forall_fmap, Forall_forall.
    intros [c f] Hin. cbn. apply Hc, list_elem_of_fmap. by exists (c, f). }
  assert (Hsame : content <$> leaf_heap ids1 tbl = content <$> leaf_heap ids2 tbl).
  { unfold leaf_heap. by rewrite !leaf_heap_content by done. }
  assert (Hlen : length (leaf_heap ids1 tbl) = length (leaf_heap ids2 tbl)).
  { by rewrite <- (length_fmap content), Hsame, length_fmap. }
  pose proof (merge_loop_content ids1 ids2 (length (leaf_heap ids1 tbl)) 0
                _ _ Hm1 Hm2 (Hold ids1 Hc1) (Hold ids2 Hc2) Hsame) as Hrun.
  unfold build_huffman_tree. rewrite <- Hlen.
  destruct (merge_loop ids1 _ 0 (leaf_heap ids1 tbl)) as [[|x1 h1]|];
    destruct (merge_loop ids2 _ 0 (leaf_heap ids2 tbl)) as [[|x2 h2]|];
    try done.
  cbn in Hrun. by injection Hrun as _ -> _.
Qed.

Lemma index_of_lt (c : symbol) (l : list symbol) :
  c ∈ l → (index_of c l < length l)%nat.
Proof.
  induction l as [|x l IH]; [by intros ?%elem_of_nil|].
  cbn [index_of length]. destruct (decide (x = c)); [lia|].
  intros [?|Hin]%elem_of_cons; [congruence|]. apply IH in Hin. lia.
Qed.

Lemma index_of_sorted (l : list symbol) :
  NoDup l → StronglySorted Z.lt ((λ c, Z.of_nat (index_of c l)) <$> l).
Proof.
  induction 1 as [|x l Hx Hnd IH]; [constructor|].
  cbn [fmap list_fmap index_of]. rewrite decide_True by done.
  assert (Htail : (λ c, Z.of_nat (if decide (x = c) then 0 else S (index_of c l)))
                    <$> l
                  = Z.succ <$> ((λ c, Z.of_nat (index_of c l)) <$> l)).
  { rewrite <- list_fmap_compose. apply list_fmap_ext. intros i c Hc. cbn.
    rewrite decide_False; [lia|].
    intros ->. apply Hx. by eapply list_elem_of_lookup_2. }
  rewrite Htail. constructor.
  - apply (StronglySorted_fmap _ Z.lt Z.lt); [intros; lia|done].
  - rewrite !Forall_fmap. apply Forall_forall. intros c _. cbn. lia.
Qed.

Lemma sequence_ids_creation_ordered tbl :
  NoDup tbl.*1 → creation_ordered (sequence_ids tbl) tbl.
Proof.
  intros Hnd. split; [|split]; cbn.
  - by apply index_of_sorted.
  - intros c k Hc. apply index_of_lt in Hc. rewrite length_fmap in Hc. lia.
  - intros k k' Hk. lia.
Qed.

(** C9, as the code has it: ties between items of equal weight are broken by
    object identity.  Two runs whose identities both grow in creation order
    build the same tree from the same table, which is then the tree that the
    sequence counter of the specification gives. *)
Theorem build_huffman_tree_creation_ordered ids1 ids2 tbl :
  creation_ordered ids1 tbl → creation_ordered ids2 tbl →
  build_huffman_tree ids1 tbl = build_huffman_tree ids2 tbl ∧
  (NoDup tbl.*1 →
   build_huffman_tree ids1 tbl = build_huffman_tree (sequence_ids tbl) tbl).
Proof.
  intros H1 H2. split; [by apply build_huffman_tree_order_only|].
  intros Hnd.
  by apply build_huffman_tree_order_only, sequence_ids_creation_ordered.
Qed.


(** *** Frequency analysis counts occurrences *)

Lemma freq_of_count_symbol (k c : symbol) tbl :
  freq_of k (count_symbol c tbl)
  = freq_of k tbl + (if decide (k = c) then 1 else 0).
Proof.
  induction tbl as [|[k' n] tbl IH]; cbn [count_symbol freq_of].
  - repeat case_decide; subst; done.
  - destruct (decide (k' = c)) as [->|Hne]; cbn [freq_of].
    + repeat case_decide; subst; try done; lia.
    + rewrite IH. repeat case_decide; subst; try done; lia.
Qed.

Lemma analyze_frequencies_snoc text (c : symbol) :
  analyze_frequencies (text ++ [c]) = count_symbol c (analyze_frequencies text).
Proof. unfold analyze_frequencies. by rewrite foldl_app. Qed.

Lemma occurrences_snoc (c x : symbol) text :
  occurrences c (text ++ [x])
  = (occurrences c text + (if decide (x = c) then 1 else 0))%nat.
Proof.
  unfold occurrences. rewrite filter_app, length_app. f_equal.
  destruct (decide (x = c)).
  - by rewrite filter_cons_True.
  - by rewrite filter_cons_False.
Qed.

Lemma freq_of_analyze_frequencies text (c : symbol) :
  freq_of c (analyze_frequencies text) = Z.of_nat (occurrences c text).
Proof.
  induction text as [|x text IH] using rev_ind; [done|].
  rewrite analyze_frequencies_snoc, freq_of_count_symbol, IH, occurrences_snoc.
  repeat case_decide; subst; try done; lia.
Qed.

Lemma NoDup_first_occurrences text : NoDup (first_occurrences text).
Proof.
  induction text as [|c text IH]; cbn [first_occurrences]; constructor.
  - rewrite list_elem_of_filter. by intros [? _].
  - by apply NoDup_filter.
Qed.

Lemma freq_of_elem tbl (c : symbol) (n : Z) :
  NoDup tbl.*1 → (c, n) ∈ tbl → freq_of c tbl = n.
Proof.
  induction tbl as [|[k m] tbl IH]; [by intros _ ?%elem_of_nil|].
  cbn [fmap list_fmap fst freq_of]. intros [Hk Hnd]%NoDup_cons.
  intros [[= -> ->]|Hin]%elem_of_cons.
  - by rewrite decide_True.
  - rewrite decide_False; [by apply IH|].
    intros ->. apply Hk. apply list_elem_of_fmap. by exists (c, n).
Qed.

Lemma sum_freq_cons (it : symbol * Z) items :
  sum_freq (it :: items) = it.2 + sum_freq items.
Proof.
  change (it :: items) with ([it] ++ items). rewrite sum_freq_app.
  unfold sum_freq at 1. cbn. lia.
Qed.

Lemma sum_freq_count_symbol (c : symbol) tbl :
  sum_freq (count_symbol c tbl) = sum_freq tbl + 1.
Proof.
  induction tbl as [|[k n] tbl IH]; cbn [count_symbol]; [done|].
  destruct (decide (k = c)); rewrite !sum_freq_cons; cbn [snd]; [lia|].
  rewrite IH. lia.
Qed.

Lemma occurrences_pos (c : symbol) text : c ∈ text → (1 ≤ occurrences c text)%nat.
Proof.
  intros Hc. unfold occurrences.
  assert (c ∈ filter (λ x, x = c) text) as Hin by (by apply list_elem_of_filter).
  destruct (filter (λ x, x = c) text); [by apply elem_of_nil in Hin|cbn; lia].
Qed.

(** X1: [analyze_frequencies] counts: the table has one entry for each symbol
    that occurs in the text and no other, each entry holds the number of
    occurrences of its symbol, which is at least 1, and the frequencies add
    up to the length of the text. *)
Theorem analyze_frequencies_counts text :
  let tbl := analyze_frequencies text in
  NoDup tbl.*1 ∧
  (∀ c, c ∈ tbl.*1 ↔ c ∈ text) ∧
  (∀ c n, (c, n) ∈ tbl → n = Z.of_nat (occurrences c text) ∧ 1 ≤ n) ∧
  (∀ c, freq_of c tbl = Z.of_nat (occurrences c text)) ∧
  sum_freq tbl = Z.of_nat (length text).
Proof.
  intros tbl.
  assert (Hnd : NoDup tbl.*1).
  { subst tbl. rewrite analyze_frequencies_keys. apply NoDup_first_occurrences. }
  assert (Hkeys : ∀ c, c ∈ tbl.*1 ↔ c ∈ text).
  { intros c. subst tbl. rewrite analyze_frequencies_keys.
    apply elem_of_first_occurrences. }
  split; [done|]. split; [done|]. split; [|split].
  - intros c n Hin.
    assert (Hc : c ∈ text).
    { apply Hkeys, list_elem_of_fmap. by exists (c, n). }
    rewrite <- (freq_of_elem tbl c n Hnd Hin).
    subst tbl. rewrite freq_of_analyze_frequencies.
    split; [done|]. apply occurrences_pos in Hc. lia.
  - intros c. apply freq_of_analyze_frequencies.
  - subst tbl. clear Hnd Hkeys.
    induction text as [|x text IH] using rev_ind; [done|].
    rewrite analyze_frequencies_snoc, sum_freq_count_symbol, IH, length_app.
    cbn. lia.
Qed.

(** *** A symbol without a code *)

Lemma join_codes_cases text code_table :
  (∃ bs, join_codes text code_table = Ok bs ∧
         ∀ c, c ∈ text → is_Some (code_table !! c)) ∨
  (join_codes text code_table = Raise KeyError ∧
   ∃ c, c ∈ text ∧ code_table !! c = None).
Proof.
  induction text as [|c text IH]; cbn [join_codes].
  - left. exists []. split; [done|]. by intros c ?%elem_of_nil.
  - destruct (code_table !! c) as [code|] eqn:Hc; cbn [subscript mbind res_bind].
    + destruct IH as [(bs & -> & Hcov)|(-> & c' & Hin & Hnone)].
      * left. exists (code ++ bs). split; [done|].
        intros c' [->|Hin]%elem_of_cons; [by rewrite Hc|by apply Hcov].
      * right. split; [done|]. exists c'. split; [by right|done].
    + right. split; [done|]. exists c. split; [by left|done].
Qed.

(** X2: [encode_text] raises exactly when a symbol of the text has no entry in
    the code table, and what it raises is then [KeyError]; with every symbol
    in the table it returns. *)
Theorem encode_text_raises_key_error text code_table :
  (encode_text text code_table = Raise KeyError ↔
   ∃ c, c ∈ text ∧ code_table !! c = None) ∧
  (is_Ok (encode_text text code_table) ↔
   ∀ c, c ∈ text → is_Some (code_table !! c)) ∧
  (∀ e, encode_text text code_table = Raise e → e = KeyError).
Proof.
  unfold encode_text.
  destruct (join_codes_cases text code_table)
    as [(bs & -> & Hcov)|(-> & c & Hin & Hnone)]; cbn [mbind res_bind].
  - split; [|split].
    + split; [done|]. intros (c & Hin & Hnone).
      destruct (Hcov c Hin) as [? ?]. congruence.
    + split; [done|]. intros _. by eexists.
    + done.
  - split; [|split].
    + split; [|done]. intros _. by exists c.
    + split; [by intros [? ?]|]. intros Hcov.
      destruct (Hcov c Hin) as [? ?]. congruence.
    + by intros e [= <-].
Qed.

(** *** Bytes to bits and back *)

Lemma int2_snoc (bs : bits) (b : bool) :
  int2 (bs ++ [b]) = 2 * int2 bs + (if b then 1 else 0).
Proof. unfold int2. by rewrite foldl_app. Qed.

Lemma int2_range (bs : bits) : 0 ≤ int2 bs < 2 ^ Z.of_nat (length bs).
Proof.
  induction bs as [|b bs IH] using rev_ind; [done|].
  rewrite int2_snoc, length_app, Nat2Z.inj_add, Z.pow_add_r by lia.
  cbn [length]. change (2 ^ Z.of_nat 1) with 2. destruct b; lia.
Qed.

Lemma length_format_08b (byte : Z) : length (format_08b byte) = 8%nat.
Proof. done. Qed.

Lemma length_bytes_to_bits (data : list Z) :
  length (bytes_to_bits data) = (8 * length data)%nat.
Proof.
  unfold bytes_to_bits. induction data as [|b data IH]; [done|].
  cbn [fmap list_fmap concat length]. rewrite length_app, IH, length_format_08b.
  lia.
Qed.

Lemma int2_format_08b (byte : Z) :
  0 ≤ byte < 256 → int2 (format_08b byte) = byte.
Proof.
  intros Hb.
  assert (Hall : Forall (λ b, int2 (format_08b b) = b) (seqZ 0 256)).
  { apply (bool_decide_unpack _). vm_compute. exact I. }
  rewrite Forall_forall in Hall. apply Hall, elem_of_seqZ. lia.
Qed.

(** X3: Packing and unpacking bits: a bit string whose length is a multiple of
    8 is packed into bytes between 0 and 255, one for every 8 bits, from
    which [bytes_to_bits] gives the bit string back. *)
Theorem bytes_to_bits_of_packed_bits (bs : bits) :
  (length bs mod 8 = 0)%nat →
  bytes_to_bits (pack_bits bs) = bs ∧
  (8 * length (pack_bits bs) = length bs)%nat ∧
  Forall (λ byte, 0 ≤ byte < 256) (pack_bits bs).
Proof.
  intros Hlen. split; [|split].
  - apply (bytes_to_bits_pack_bits (length bs / 8)). lia.
  - rewrite length_pack_bits. lia.
  - unfold pack_bits. apply Forall_fmap, Forall_forall. intros i _. cbn.
    pose proof (int2_range (take 8 (drop i bs))) as Hr.
    assert (2 ^ Z.of_nat (length (take 8 (drop i bs))) ≤ 2 ^ 8).
    { apply Z.pow_le_mono_r; [lia|]. rewrite length_take. lia. }
    change (2 ^ 8) with 256 in *. lia.
Qed.

(** X4: Unpacking and packing bytes: [bytes_to_bits] gives 8 bits for every
    byte, and packing them again gives back the bytes, each between 0 and
    255 as the elements of a Python [bytes] are. *)
Theorem pack_bits_of_bytes_to_bits (data : list Z) :
  Forall (λ byte, 0 ≤ byte < 256) data →
  pack_bits (bytes_to_bits data) = data ∧
  length (bytes_to_bits data) = (8 * length data)%nat.
Proof.
  intros Hdata. split; [|apply length_bytes_to_bits].
  induction Hdata as [|b data Hb Hdata IH]; [done|].
  rewrite (pack_bits_cons _ (length data))
    by (rewrite length_bytes_to_bits; cbn [length]; lia).
  unfold bytes_to_bits. cbn [fmap list_fmap concat].
  rewrite take_app_length' by done. rewrite drop_app_length' by done.
  rewrite int2_format_08b by done. f_equal. apply IH.
Qed.

(** *** Decoding arbitrary bits with a full tree *)

Lemma full_inv nd :
  full nd → node_char nd = None →
  ∃ f l r, nd = Dict None f (Some l) (Some r) ∧ full l ∧ full r.
Proof.
  destruct nd as [[c|] f [l|] [r|]]; cbn; try done.
  intros [Hl Hr] _. by exists f, l, r.
Qed.

Lemma full_char_leaves nd c : full nd → node_char nd = Some c → leaves nd = [c].
Proof. destruct nd as [[c'|] f l r]; cbn; [by intros _ [= ->]|done]. Qed.

Lemma decode_loop_full (tree : node) : ∀ (bs : bits) nd (result : list symbol),
  full tree → node_char tree = None →
  full nd → node_char nd = None → (∀ c, c ∈ leaves nd → c ∈ leaves tree) →
  Forall (λ c, c ∈ leaves tree) result →
  ∃ out nd', decode_loop tree bs nd result = Ok (out, nd') ∧
    (length out ≤ length result + length bs)%nat ∧
    Forall (λ c, c ∈ leaves tree) out.
Proof.
  induction bs as [|bit bs IH]; intros nd result Hft Hct Hfn Hcn Hsub Hres.
  - exists result, nd. cbn. split; [done|]. split; [lia|done].
  - destruct (full_inv nd Hfn Hcn) as (f & l & r & -> & Hl & Hr).
    cbn [decode_loop node_left node_right].
    set (ch := if bit then r else l).
    assert (Hch : (if bit then Some r else Some l) = Some ch) by (by destruct bit).
    assert (Hfull : full ch) by (subst ch; by destruct bit).
    assert (Hchsub : ∀ c, c ∈ leaves ch → c ∈ leaves tree).
    { intros c Hc. apply Hsub. cbn [leaves]. apply elem_of_app.
      subst ch. destruct bit; auto. }
    rewrite Hch. cbn [subscript mbind res_bind].
    destruct (node_char ch) as [c|] eqn:Hchar.
    + destruct (IH tree (result ++ [c])) as (out & nd' & -> & Hlen & Hout);
        try done.
      { apply Forall_app. split; [done|]. constructor; [|done].
        apply Hchsub. rewrite (full_char_leaves ch c) by done. by left. }
      exists out, nd'. split; [done|]. split; [|done].
      rewrite length_app in Hlen. cbn in *. lia.
    + destruct (IH ch result) as (out & nd' & -> & Hlen & Hout); try done.
      exists out, nd'. split; [done|]. split; [cbn; lia|done].
Qed.

Lemma length_strip_padding (bs : bits) (padding : nat) :
  (length (strip_padding bs padding) ≤ length bs)%nat.
Proof.
  unfold strip_padding. case_decide; [|done]. rewrite length_take. lia.
Qed.

(** X6: With a full tree whose root is a merged dict, [decode_bits] raises on no
    bit string and no padding count: it returns at most one symbol per bit,
    each of them a symbol at a leaf of the tree. *)
Theorem decode_bits_full_tree_returns (tree : node) (bs : bits) (padding : nat) :
  full tree → node_char tree = None →
  ∃ out, decode_bits bs tree padding = Ok out ∧
    (length out ≤ length bs)%nat ∧
    Forall (λ c, c ∈ leaves tree) out.
Proof.
  intros Hfull Hroot. unfold decode_bits.
  destruct (decode_loop_full tree (strip_padding bs padding) tree [])
    as (out & nd' & -> & Hlen & Hout); try done.
  exists out. split; [done|]. split; [|done].
  pose proof (length_strip_padding bs padding). cbn in Hlen. lia.
Qed.

(** *** The code table of a tree *)

Lemma generate_codes_dom : ∀ t prefix c,
  is_Some (generate_codes t prefix !! c) → c ∈ leaves t.
Proof.
  fix IH 1. intros [[c'|] f l r] prefix c; cbn [leaves generate_codes].
  - intros [code [-> _]%lookup_singleton_Some]. by left.
  - assert (Hleft : is_Some (match l with
                             | Some l => generate_codes l (prefix ++ [false]) ∪ ∅
                             | None => ∅
                             end !! c) →
                    c ∈ match l with Some l => leaves l | None => [] end).
    { destruct l as [l|]; [|by rewrite lookup_empty; intros [? ?]].
      rewrite lookup_union_is_Some, lookup_empty.
      intros [Hl|[? ?]]; [|done]. by eapply IH. }
    rewrite elem_of_app. destruct r as [r|]; [|by left; apply Hleft].
    rewrite lookup_union_is_Some. intros [Hr|Hl]; [|by left; apply Hleft].
    right. by eapply IH.
Qed.

Lemma walk_nonempty nd (p : bits) c : walk nd p = Some c → p ≠ [].
Proof. by destruct p. Qed.

(** X7: The code table generated from a tree has an entry exactly for the
    symbols at its leaves, and no code in it is the empty string. *)
Theorem generate_codes_entries t :
  (∀ c, is_Some (generate_codes t [] !! c) ↔ c ∈ leaves t) ∧
  (∀ c code, generate_codes t [] !! c = Some code → code ≠ []).
Proof.
  split.
  - intros c. split; [apply generate_codes_dom|apply generate_codes_covers].
  - intros c code Hcode. destruct (node_char t) as [c'|] eqn:Hch.
    + destruct t as [ch f l r]. cbn in Hch. subst ch.
      cbn [generate_codes] in Hcode.
      by apply lookup_singleton_Some in Hcode as [_ <-].
    + apply generate_codes_walk in Hcode as (p & -> & Hp); [|done].
      cbn [app]. by eapply walk_nonempty.
Qed.

(** *** The table at the leaves and the weights of the dicts *)

Lemma leaves_leaf_items : ∀ t, leaves t = (leaf_items t).*1.
Proof.
  fix IH 1. intros [[c|] f l r]; cbn [leaves leaf_items]; [done|].
  rewrite fmap_app. f_equal.
  - destruct l as [l|]; [apply IH|done].
  - destruct r as [r|]; [apply IH|done].
Qed.

Lemma node_freq_leaf_items : ∀ t,
  weights_add_up t → node_freq t = sum_freq (leaf_items t).
Proof.
  fix IH 1. intros [[c|] f l r]; cbn [weights_add_up leaf_items node_freq].
  - intros _. rewrite sum_freq_cons. cbn. lia.
  - intros (-> & Hl & Hr). rewrite sum_freq_app. f_equal.
    + destruct l as [l|]; [by apply IH|done].
    + destruct r as [r|]; [by apply IH|done].
Qed.

Lemma sum_freq_perm items1 items2 :
  items1 ≡ₚ items2 → sum_freq items1 = sum_freq items2.
Proof.
  induction 1 as [|x l1 l2 _ IH|x y l|l1 l2 l3 _ IH1 _ IH2];
    rewrite ?sum_freq_cons; lia.
Qed.

Lemma build_shannon_tree_leaf_items depth : ∀ items t,
  build_shannon_tree depth items = Ok t →
  leaf_items t = items ∧ weights_add_up t ∧ node_freq t = sum_freq items.
Proof.
  induction depth as [|depth IH]; intros items t; cbn [build_shannon_tree];
    [done|].
  assert (Hrec : (l ← build_shannon_tree depth
                        (take (Z.to_nat (shannon_fano_split items)) items);
                  r ← build_shannon_tree depth
                        (drop (Z.to_nat (shannon_fano_split items)) items);
                  Ok (merged_dict (sum_freq items) l r)) = Ok t →
                 leaf_items t = items ∧ weights_add_up t
                 ∧ node_freq t = sum_freq items).
  { destruct (build_shannon_tree depth (take _ items)) as [l|] eqn:Hl; [|done].
    destruct (build_shannon_tree depth (drop _ items)) as [r|] eqn:Hr; [|done].
    cbn. intros [= <-].
    destruct (IH _ _ Hl) as (Hli & Hlw & Hlf).
    destruct (IH _ _ Hr) as (Hri & Hrw & Hrf).
    cbn [leaf_items weights_add_up merged_dict node_freq].
    rewrite Hli, Hri, Hlf, Hrf, <- sum_freq_app, take_drop. done. }
  destruct items as [|[c f] [|it items]]; try exact Hrec.
  intros [= <-]. rewrite sum_freq_cons. cbn. split; [done|]. split; [done|lia].
Qed.

(** X8: The Shannon-Fano tree holds the items it was built from at its leaves,
    in their order, each with its frequency; every merged dict carries the
    sum of its two children's ['freq'], and the root the sum of all
    frequencies. *)
Theorem build_shannon_tree_keeps_items depth items t :
  build_shannon_tree depth items = Ok t →
  leaf_items t = items ∧ leaves t = items.*1 ∧
  weights_add_up t ∧ node_freq t = sum_freq items.
Proof.
  intros Ht. destruct (build_shannon_tree_leaf_items _ _ _ Ht) as (Hi & Hw & Hf).
  split; [done|]. split; [by rewrite leaves_leaf_items, Hi|done].
Qed.

Lemma bind_singleton_id {A} (l : list A) : l ≫= (λ x, [x]) = l.
Proof. induction l as [|x l IH]; [done|]. rewrite bind_cons, IH. done. Qed.

Lemma build_huffman_tree_leaf_items ids tbl t :
  build_huffman_tree ids tbl = Some t →
  leaf_items t ≡ₚ tbl ∧ weights_add_up t ∧ node_freq t = sum_freq tbl.
Proof.
  intros Ht.
  assert (Hne : tbl ≠ []) by (by intros ->).
  destruct (build_huffman_tree_heap_rule ids tbl
    (λ heap, Forall (λ x : item, x.1.1 = node_freq x.2 ∧ weights_add_up x.2) heap
             ∧ heap ≫= (λ x : item, leaf_items x.2) ≡ₚ tbl))
    as (x & Hx & Hall & Hperm); [| |done|].
  - intros k f1 i1 l f2 i2 r heap [Hall Hperm].
    inversion_clear Hall as [|? ? [Hl1 Hl2] Hall'].
    inversion_clear Hall' as [|? ? [Hr1 Hr2] Hall''].
    cbn in Hl1, Hl2, Hr1, Hr2. split.
    + rewrite heappush_perm. constructor; [|done]. cbn. by subst.
    + rewrite heappush_perm, bind_cons. rewrite !bind_cons in Hperm.
      cbn [snd leaf_items merged_dict]. by rewrite <- app_assoc.
  - split.
    + rewrite leaf_heap_perm. apply Forall_fmap, Forall_forall.
      by intros [c f] _.
    + rewrite leaf_heap_perm.
      assert (Hbind : ∀ l : freq_table,
        ((λ '(c, f), (f, id_char ids c, leaf_dict c f)) <$> l)
          ≫= (λ x : item, leaf_items x.2) = l).
      { induction l as [|[c f] l IH]; [done|].
        rewrite fmap_cons, bind_cons, IH. done. }
      by rewrite Hbind.
  - rewrite Ht in Hx. injection Hx as ->.
    inversion_clear Hall as [|? ? [_ Hw] _].
    rewrite bind_cons, app_nil_r in Hperm.
    split; [done|]. split; [done|].
    by rewrite (node_freq_leaf_items _ Hw), (sum_freq_perm _ _ Hperm).
Qed.

(** X9: The Huffman tree holds every entry of the frequency table at exactly
    one leaf, with its frequency; every merged dict carries the sum of its
    two children's ['freq'], and the root the sum of all frequencies. *)
Theorem build_huffman_tree_keeps_table ids tbl t :
  build_huffman_tree ids tbl = Some t →
  leaf_items t ≡ₚ tbl ∧ leaves t ≡ₚ tbl.*1 ∧
  weights_add_up t ∧ node_freq t = sum_freq tbl.
Proof.
  intros Ht. destruct (build_huffman_tree_leaf_items _ _ _ Ht) as (Hi & Hw & Hf).
  split; [done|]. split; [by rewrite leaves_leaf_items, Hi|done].
Qed.

(** *** Code lengths *)

Lemma full_leaves_pos : ∀ t, full t → (1 ≤ length (leaves t))%nat.
Proof.
  fix IH 1. intros [[c|] f [l|] [r|]]; cbn; try done.
  intros [Hl Hr]. rewrite length_app. apply IH in Hl. lia.
Qed.

Lemma walk_length : ∀ (p : bits) t c,
  full t → node_char t = None → walk t p = Some c →
  (length p < length (leaves t))%nat.
Proof.
  induction p as [|bit p IH]; intros t c Hfull Hroot; [done|].
  destruct (full_inv t Hfull Hroot) as (f & l & r & -> & Hl & Hr).
  cbn [walk child node_left node_right leaves]. rewrite length_app.
  pose proof (full_leaves_pos l Hl). pose proof (full_leaves_pos r Hr).
  set (ch := if bit then r else l).
  assert (Hch : child bit (Dict None f (Some l) (Some r)) = Some ch)
    by (by destruct bit).
  assert (Hfch : full ch) by (subst ch; by destruct bit).
  assert (Hlen : (length (leaves ch) < length (leaves l) + length (leaves r))%nat)
    by (subst ch; destruct bit; lia).
  rewrite Hch. destruct (node_char ch) as [c'|] eqn:Hchar.
  - destruct p; [|done]. intros _. cbn. lia.
  - intros Hw. apply IH in Hw; [|done|done]. cbn [length]. lia.
Qed.

Lemma full_code_length t (c : symbol) (code : bits) :
  full t → generate_codes t [] !! c = Some code →
  (1 ≤ length code ≤ Nat.max 1 (length (leaves t) - 1))%nat.
Proof.
  intros Hfull Hcode. destruct (node_char t) as [c'|] eqn:Hch.
  - destruct t as [ch f l r]. cbn in Hch. subst ch.
    cbn [generate_codes] in Hcode.
    apply lookup_singleton_Some in Hcode as [_ <-]. cbn. lia.
  - apply generate_codes_walk in Hcode as (p & -> & Hp); [|done].
    cbn [app]. pose proof (walk_nonempty _ _ _ Hp).
    apply walk_length in Hp; [|done|done].
    destruct p; [done|]. cbn [length] in *. lia.
Qed.

(** X10: No code is long: in the code table of the tree either builder returns
    for n entries, every code has at least one bit and at most n - 1 bits
    (one bit when n is 1). *)
Theorem code_lengths_bounded :
  (∀ depth items t (c : symbol) (code : bits),
     build_shannon_tree depth items = Ok t →
     generate_codes t [] !! c = Some code →
     (1 ≤ length code ≤ Nat.max 1 (length items - 1))%nat) ∧
  (∀ ids tbl t (c : symbol) (code : bits),
     build_huffman_tree ids tbl = Some t →
     generate_codes t [] !! c = Some code →
     (1 ≤ length code ≤ Nat.max 1 (length tbl - 1))%nat).
Proof.
  split.
  - intros depth items t c code Ht Hcode.
    pose proof (build_shannon_tree_full _ _ _ Ht) as Hfull.
    pose proof (full_code_length t c code Hfull Hcode) as Hlen.
    by rewrite (build_shannon_tree_leaves _ _ _ Ht), length_fmap in Hlen.
  - intros ids tbl t c code Ht Hcode.
    assert (Hfull : full t).
    { destruct (build_huffman_tree_invariant ids tbl full) as (t' & Ht' & Hfull);
        [done|by intros; cbn|by intros ->|]. congruence. }
    pose proof (full_code_length t c code Hfull Hcode) as Hlen.
    destruct (build_huffman_tree_leaf_items _ _ _ Ht) as (Hperm & _ & _).
    by rewrite leaves_leaf_items, length_fmap, Hperm in Hlen.
Qed.

(** *** The size of the payload *)

Lemma weighted_length_count_symbol (c : symbol) tbl code_table :
  weighted_length (count_symbol c tbl) code_table
  = weighted_length tbl code_table
    + Z.of_nat (length (default [] (code_table !! c))).
Proof.
  unfold weighted_length.
  induction tbl as [|[k n] tbl IH]; cbn [count_symbol foldr fst snd]; [lia|].
  destruct (decide (k = c)) as [->|Hne]; cbn [foldr fst snd]; [lia|].
  rewrite IH. lia.
Qed.

Lemma total_bit_length_weighted text code_table :
  Z.of_nat (total_bit_length text code_table)
  = weighted_length (analyze_frequencies text) code_table.
Proof.
  induction text as [|c text IH] using rev_ind; [done|].
  rewrite analyze_frequencies_snoc, weighted_length_count_symbol, <- IH.
  unfold total_bit_length. rewrite fmap_app, sum_list_with_app. cbn. lia.
Qed.

(** X11: The size of the payload: when [encode_text] returns, eight times the
    number of bytes is the padding count plus, summed over the frequency
    table of the text, frequency times code length. *)
Theorem encode_text_payload_size text code_table (data : list Z) (padding : nat) :
  encode_text text code_table = Ok (data, padding) →
  8 * Z.of_nat (length data)
  = weighted_length (analyze_frequencies text) code_table + Z.of_nat padding.
Proof.
  unfold encode_text.
  destruct (join_codes_cases text code_table)
    as [(bs & Hbs & Hcov)|(-> & _)]; [|done].
  destruct (join_codes_covered text code_table Hcov) as (bs' & Hbs' & Hlen).
  rewrite Hbs' in *. cbn [mbind res_bind]. intros [= <- <-].
  rewrite <- total_bit_length_weighted, <- Hlen.
  rewrite length_pack_bits, length_app, length_replicate.
  destruct (padding_of_spec (length bs')) as (_ & _ & Hdiv & Hmul). lia.
Qed.

(** *** The arithmetic path and the demonstration *)

Lemma arithmetic_compress_nonempty ids text :
  text ≠ [] →
  arithmetic_compress ids text
  = (code_table ←
       generate_codes_of (build_huffman_tree ids (analyze_frequencies text));
     '(data, padding) ← encode_text text code_table;
     Ok (data,
         Some (Metadata (analyze_frequencies text)
                 (build_huffman_tree ids (analyze_frequencies text))
                 code_table (length text)),
         padding)).
Proof.
  intros Hne. destruct text as [|c text]; [done|].
  unfold arithmetic_compress, encode_text.
  destruct (generate_codes_of _) as [code_table|]; [|done].
  cbn [mbind res_bind].
  by destruct (join_codes (c :: text) code_table).
Qed.

Lemma decode_loop_result (tree : node) : ∀ (bs : bits) nd (result : list symbol),
  decode_loop tree bs nd result
  = ('(out, nd') ← decode_loop tree bs nd []; Ok (result ++ out, nd')).
Proof.
  induction bs as [|bit bs IH]; intros nd result.
  - cbn. by rewrite app_nil_r.
  - cbn [decode_loop].
    destruct (if bit then node_right nd else node_left nd) as [ch|]; [|done].
    cbn [subscript mbind res_bind].
    destruct (node_char ch) as [c|]; [|apply IH].
    rewrite (IH tree (result ++ [c])), (IH tree ([] ++ [c])).
    destruct (decode_loop tree bs tree []) as [[out nd']|]; [|done].
    cbn. by rewrite <- app_assoc.
Qed.

Lemma encode_text_code_words tree text :
  node_char tree = None →
  (∀ c, c ∈ text → c ∈ leaves tree) →
  ∃ (words : list (symbol * bits)) (padding : nat),
    words.*1 = text ∧
    Forall (λ w, walk tree w.2 = Some w.1) words ∧
    encode_text text (generate_codes tree [])
    = Ok (pack_bits (concat words.*2 ++ replicate padding false), padding) ∧
    bytes_to_bits (pack_bits (concat words.*2 ++ replicate padding false))
    = concat words.*2 ++ replicate padding false.
Proof.
  intros Hroot Hcov.
  destruct (join_codes_words text (generate_codes tree []))
    as (words & Hw & Hj & Hall).
  { intros c Hc. by apply generate_codes_covers, Hcov. }
  exists words, (padding_of (length (concat words.*2))).
  split; [done|]. split; [|split].
  - eapply Forall_impl; [exact Hall|]. intros [c code] Hlook. cbn in *.
    apply generate_codes_walk in Hlook as (p & -> & Hp); done.
  - unfold encode_text. by rewrite Hj.
  - destruct (padding_of_spec (length (concat words.*2))) as (_ & _ & _ & Hdiv).
    apply (bytes_to_bits_pack_bits ((length (concat words.*2) + 7) / 8)).
    rewrite length_app, length_replicate. lia.
Qed.

(** What the arithmetic path does on a text with two different symbols. *)
Lemma arithmetic_path ids text (a b : symbol) :
  a ∈ text → b ∈ text → a ≠ b →
  ∃ data padding tree extra nd,
    arithmetic_compress ids text
    = Ok (data,
          Some (Metadata (analyze_frequencies text) (Some tree)
                  (generate_codes tree []) (length text)),
          padding) ∧
    arithmetic_decompress data
      (Some (Metadata (analyze_frequencies text) (Some tree)
               (generate_codes tree []) (length text))) padding = Ok text ∧
    decode_loop tree (replicate padding false) tree [] = Ok (extra, nd) ∧
    arithmetic_decompress data
      (Some (Metadata (analyze_frequencies text) (Some tree)
               (generate_codes tree []) (length text))) 0 = Ok (text ++ extra).
Proof.
  intros Ha Hb Hab.
  assert (Hne : text ≠ []) by (intros ->; by apply elem_of_nil in Ha).
  assert (Hin : ∀ c, c ∈ text → c ∈ (analyze_frequencies text).*1).
  { intros c Hc. rewrite analyze_frequencies_keys.
    by apply elem_of_first_occurrences. }
  destruct (build_huffman_tree_covers ids (analyze_frequencies text))
    as (tree & Htree & Hcov).
  { intros Hnil. apply Hin in Ha. rewrite Hnil in Ha. by apply elem_of_nil in Ha. }
  assert (Hfull : full tree).
  { destruct (build_huffman_tree_invariant ids (analyze_frequencies text) full)
      as (t' & Ht' & Hfull); [done|by intros; cbn| |congruence].
    intros Hnil. apply Hin in Ha. rewrite Hnil in Ha. by apply elem_of_nil in Ha. }
  assert (Hroot : node_char tree = None)
    by (apply (two_leaves_root tree a b); auto).
  destruct (encode_text_code_words tree text Hroot)
    as (words & padding & Hw & Hwalk & He & Hbits); [auto|].
  set (bs := concat words.*2) in *.
  set (data := pack_bits (bs ++ replicate padding false)) in *.
  clearbody data.
  destruct (decode_loop_full tree (replicate padding false) tree [])
    as (extra & nd & Hextra & _ & _); try done.
  exists data, padding, tree, extra, nd.
  assert (Hdata : data ≠ []).
  { intros Hnil. rewrite Hnil in Hbits. cbn in Hbits.
    symmetry in Hbits. apply app_eq_nil in Hbits as [Hbs _].
    subst bs. destruct words as [|[c p] words]; [by rewrite <- Hw in Hne|].
    inversion_clear Hwalk as [|? ? Hp _]. cbn in Hp, Hbs.
    apply walk_nonempty in Hp. by destruct p. }
  split; [|split; [|split]].
  - rewrite arithmetic_compress_nonempty by done.
    rewrite Htree. cbn [generate_codes_of mbind res_bind]. by rewrite He.
  - destruct data as [|byte rest]; [done|].
    change (decode_bits (bytes_to_bits (byte :: rest)) tree padding = Ok text).
    rewrite Hbits. unfold decode_bits.
    assert (Hs : strip_padding (bs ++ replicate padding false) padding = bs).
    { rewrite <- (length_replicate padding false) at 2. apply strip_padding_app. }
    rewrite Hs. subst bs.
    rewrite <- (app_nil_r (concat words.*2)), decode_loop_code_words by done.
    cbn. by rewrite Hw.
  - done.
  - destruct data as [|byte rest]; [done|].
    change (decode_bits (bytes_to_bits (byte :: rest)) tree 0 = Ok (text ++ extra)).
    rewrite Hbits. unfold decode_bits, strip_padding.
    rewrite decide_False by lia. subst bs.
    rewrite decode_loop_code_words by done. cbn [app].
    rewrite decode_loop_result, Hextra. cbn. by rewrite Hw.
Qed.

(** X13: The arithmetic path round-trips where the two compressors do, and on
    the empty text as well: for a text that is empty or has two different
    symbols, [arithmetic_decompress] applied to the bytes, metadata and
    padding that [arithmetic_compress] returns gives the text back. *)
Theorem arithmetic_round_trip ids text :
  text = [] ∨ (∃ a b : symbol, a ∈ text ∧ b ∈ text ∧ a ≠ b) →
  ∃ data metadata padding,
    arithmetic_compress ids text = Ok (data, metadata, padding) ∧
    arithmetic_decompress data metadata padding = Ok text.
Proof.
  intros [->|(a & b & Ha & Hb & Hab)].
  - by exists [], None, 0%nat.
  - destruct (arithmetic_path ids text a b Ha Hb Hab)
      as (data & padding & tree & extra & nd & Hc & Hd & _).
    by eexists data, _, padding.
Qed.

(** X14: Called without its padding argument, as [demo_equivalence] calls it,
    [arithmetic_decompress] decodes the padding bits too: it returns the
    text followed by the symbols that the [padding] zero bits spell from the
    root, which are none when the padding count is 0. *)
Theorem arithmetic_decompress_default_padding ids text (a b : symbol) :
  a ∈ text → b ∈ text → a ≠ b →
  ∃ data metadata padding tree extra nd,
    arithmetic_compress ids text = Ok (data, Some metadata, padding) ∧
    meta_tree metadata = Some tree ∧
    decode_loop tree (replicate padding false) tree [] = Ok (extra, nd) ∧
    arithmetic_decompress data (Some metadata) 0 = Ok (text ++ extra) ∧
    (padding = 0%nat → extra = []).
Proof.
  intros Ha Hb Hab.
  destruct (arithmetic_path ids text a b Ha Hb Hab)
    as (data & padding & tree & extra & nd & Hc & _ & Hextra & Hd).
  eexists data, _, padding, tree, extra, nd.
  split; [exact Hc|]. split; [done|]. split; [done|]. split; [done|].
  intros ->. cbn in Hextra. by injection Hextra as <- _.
Qed.

(** *** What the demonstration prints *)

Lemma forallb_elem_of (f : symbol → bool) (l : list symbol) :
  forallb f l = true ↔ ∀ c, c ∈ l → f c = true.
Proof.
  rewrite forallb_forall. split; intros Hf c Hc; apply Hf.
  - by apply list_elem_of_In.
  - by apply list_elem_of_In.
Qed.

Lemma print_returns (printable : symbol → bool) symbols :
  (∀ c, c ∈ symbols → printable c = true) → print printable symbols = Ok ().
Proof. intros Hp. unfold print. by rewrite (proj2 (forallb_elem_of _ _) Hp). Qed.

Lemma print_raises (printable : symbol → bool) symbols c :
  c ∈ symbols → printable c = false →
  print printable symbols = Raise UnicodeEncodeError.
Proof.
  intros Hc Hp. unfold print.
  destruct (forallb printable symbols) eqn:Hall; [|done].
  rewrite forallb_elem_of in Hall. rewrite (Hall c Hc) in Hp. done.
Qed.

Lemma print_stats_returns {T} (encodable : symbol → bool) text data (ct : T) :
  (∀ c, c ∈ text → encodable c = true) →
  print_stats encodable text data ct = Ok ().
Proof.
  intros Hp. unfold print_stats. by rewrite (proj2 (forallb_elem_of _ _) Hp).
Qed.

Lemma print_stats_raises {T} (encodable : symbol → bool) text data (ct : T) c :
  c ∈ text → encodable c = false →
  print_stats encodable text data ct = Raise UnicodeEncodeError.
Proof.
  intros Hc Hp. unfold print_stats.
  destruct (forallb encodable text) eqn:Hall; [|done].
  rewrite forallb_elem_of in Hall. rewrite (Hall c Hc) in Hp. done.
Qed.

Lemma forallb_replicate (f : symbol → bool) (c : symbol) (n : nat) :
  forallb f (replicate (S n) c) = f c.
Proof.
  induction n as [|n IH]; cbn [replicate forallb] in *.
  - by rewrite andb_true_r.
  - rewrite IH. by destruct (f c).
Qed.


Lemma single_symbol_compress (c : symbol) (n depth : nat) ids :
  ∃ data padding,
    shannon_fano_compress (S depth) (replicate (S n) c)
    = Ok (data, leaf_dict c (Z.of_nat (S n)), padding, {[ c := [false] ]}) ∧
    huffman_compress ids (replicate (S n) c)
    = Ok (data, Some (leaf_dict c (Z.of_nat (S n))), padding, {[ c := [false] ]}) ∧
    encode_text (replicate (S n) c) {[ c := [false] ]} = Ok (data, padding) ∧
    decode_bits (bytes_to_bits data) (leaf_dict c (Z.of_nat (S n))) padding
    = Raise KeyError.
Proof.
  destruct (encode_decode_single_leaf c (Z.of_nat (S n)) n)
    as (data & padding & He & Hd).
  exists data, padding. split; [|split; [|done]].
  - unfold shannon_fano_compress. rewrite analyze_frequencies_replicate.
    cbn [sorted_by_freq foldr insert_by_freq build_shannon_tree mbind res_bind].
    cbn [generate_codes leaf_dict]. fold (leaf_dict c (Z.of_nat (S n))).
    by rewrite He.
  - unfold huffman_compress. rewrite analyze_frequencies_replicate.
    unfold build_huffman_tree.
    cbn [leaf_heap foldl heappush length merge_loop snd].
    cbn [generate_codes_of generate_codes leaf_dict mbind res_bind].
    fold (leaf_dict c (Z.of_nat (S n))).
    by rewrite He.
Qed.

(** X16: On the texts that do not round-trip, [demo_equivalence] returns no
    flag.  On the empty text it raises [RecursionError], in the first
    compression.  On a text that repeats one symbol it raises [KeyError], in
    the first decompression, provided the symbol is one that the standard
    output takes and that UTF-8 encodes; if not, it raises
    [UnicodeEncodeError] before, as it does on every text with a symbol
    among its first hundred that the standard output does not take. *)
Theorem demo_equivalence_raises printable encodable depth ids_huffman ids_arithmetic :
  demo_equivalence printable encodable depth ids_huffman ids_arithmetic
    ([] : list symbol)
  = Raise RecursionError ∧
  (∀ (c : symbol) (n : nat),
     printable c = true → encodable c = true →
     demo_equivalence printable encodable (S depth) ids_huffman ids_arithmetic
       (replicate (S n) c)
     = Raise KeyError) ∧
  (∀ (c : symbol) (n : nat),
     printable c && encodable c = false →
     demo_equivalence printable encodable (S depth) ids_huffman ids_arithmetic
       (replicate (S n) c)
     = Raise UnicodeEncodeError) ∧
  (∀ (text : list symbol) (c : symbol),
     c ∈ take 100 text → printable c = false →
     demo_equivalence printable encodable depth ids_huffman ids_arithmetic text
     = Raise UnicodeEncodeError).
Proof.
  split; [|split; [|split]].
  - unfold demo_equivalence, shannon_fano_compress.
    cbn [take print forallb mbind res_bind].
    cbn [analyze_frequencies foldl sorted_by_freq foldr].
    by rewrite build_shannon_tree_empty.
  - intros c n Hp He.
    destruct (single_symbol_compress c n depth ids_huffman)
      as (data & padding & Hs & Hh & Henc & Hd).
    assert (Hall : ∀ c', c' ∈ replicate (S n) c → encodable c' = true).
    { intros c' Hc'. by apply elem_of_replicate in Hc' as [-> _]. }
    unfold demo_equivalence. rewrite print_returns; last first.
    { intros c' Hc'. apply elem_of_take in Hc' as (i & Hc' & _).
      by apply lookup_replicate in Hc' as [-> _]. }
    cbn [mbind res_bind]. rewrite Hs. cbn [mbind res_bind].
    rewrite (print_stats_returns _ _ _ _ Hall). cbn [mbind res_bind].
    rewrite Hh. cbn [mbind res_bind].
    rewrite (print_stats_returns _ _ _ _ Hall). cbn [mbind res_bind].
    rewrite arithmetic_compress_nonempty by done.
    rewrite analyze_frequencies_replicate. unfold build_huffman_tree.
    cbn [leaf_heap foldl heappush length merge_loop snd].
    cbn [generate_codes_of generate_codes leaf_dict mbind res_bind].
    rewrite Henc. cbn [mbind res_bind fmap option_fmap option_map subscript].
    rewrite (print_stats_returns _ _ _ _ Hall). cbn [mbind res_bind].
    unfold shannon_fano_decompress. by rewrite Hd.
  - intros c n Hpe.
    destruct (single_symbol_compress c n depth ids_huffman)
      as (data & padding & Hs & _ & _ & _).
    unfold demo_equivalence, print.
    replace (take 100 (replicate (S n) c))
      with (replicate (S (Nat.min 100 (S n) - 1)) c); last first.
    { rewrite take_replicate. f_equal. lia. }
    rewrite forallb_replicate.
    destruct (printable c); [|done]. cbn [mbind res_bind].
    rewrite Hs. cbn [mbind res_bind]. unfold print_stats.
    rewrite forallb_replicate. cbn [andb] in Hpe. by rewrite Hpe.
  - intros text c Hc Hp. unfold demo_equivalence.
    by rewrite (print_raises _ _ _ Hc Hp).
Qed.

(** *** The code table a compressor returns *)

Lemma elem_of_keys_text text (c : symbol) :
  c ∈ (analyze_frequencies text).*1 ↔ c ∈ text.
Proof. rewrite analyze_frequencies_keys. apply elem_of_first_occurrences. Qed.

(** X12: The code table that a compressor returns has an entry exactly for the
    symbols that occur in the text. *)
Theorem compress_code_table_keys :
  (∀ depth text data tree padding code_table,
     shannon_fano_compress depth text = Ok (data, tree, padding, code_table) →
     ∀ c : symbol, is_Some (code_table !! c) ↔ c ∈ text) ∧
  (∀ ids text data tree padding code_table,
     huffman_compress ids text = Ok (data, tree, padding, code_table) →
     ∀ c : symbol, is_Some (code_table !! c) ↔ c ∈ text).
Proof.
  split.
  - intros depth text data tree padding code_table. unfold shannon_fano_compress.
    destruct (build_shannon_tree depth _) as [t|] eqn:Ht; [|done].
    cbn [mbind res_bind].
    destruct (encode_text text (generate_codes t [])) as [[d p]|]; [|done].
    cbn [mbind res_bind]. intros [= <- <- <- <-] c.
    rewrite <- elem_of_keys_text, <- (sorted_by_freq_perm (analyze_frequencies text)).
    rewrite <- (build_shannon_tree_leaves _ _ _ Ht).
    split; [apply generate_codes_dom|apply generate_codes_covers].
  - intros ids text data tree padding code_table. unfold huffman_compress.
    destruct (build_huffman_tree ids _) as [t|] eqn:Ht; [|done].
    cbn [generate_codes_of mbind res_bind].
    destruct (encode_text text (generate_codes t [])) as [[d p]|]; [|done].
    cbn [mbind res_bind]. intros [= <- <- <- <-] c.
    destruct (build_huffman_tree_leaf_items _ _ _ Ht) as (Hperm & _ & _).
    rewrite <- elem_of_keys_text, <- Hperm, <- leaves_leaf_items.
    split; [apply generate_codes_dom|apply generate_codes_covers].
Qed.

(** *** Codes decode to their symbols, whatever built the tree *)

(** [generate_codes] under a recursion limit returns what the total
    function returns when the limit allows the nested calls that the tree
    needs, and raises otherwise. *)
Lemma generate_codes_within_depth : ∀ depth (tree : node) prefix,
  generate_codes_within depth tree prefix
  = if (generate_codes_depth tree <=? depth)%nat
    then Ok (generate_codes tree prefix)
    else Raise RecursionError.
Proof.
  induction depth as [|depth IH]; intros [[c|] f l r] prefix; try done.
  cbn [generate_codes_within generate_codes generate_codes_depth].
  destruct l as [l|], r as [r|]; rewrite ?IH;
    repeat match goal with
    | |- context [(?a <=? ?b)%nat] => destruct (Nat.leb_spec a b)
    end; cbn [mbind res_bind]; try done; lia.
Qed.

(** X17: Encoding and decoding with one tree are inverse: for a tree whose
    root has no ['char'], however it was built, within the recursion limit
    of [generate_codes], and a text made of symbols at its leaves,
    [generate_codes] returns the code table, [encode_text] with it returns,
    and [decode_bits] on the unpacked bytes with the same tree and the
    returned padding count gives the text. *)
Theorem encode_text_decode_bits_inverse (depth : nat) (tree : node) text :
  node_char tree = None →
  (∀ c, c ∈ text → c ∈ leaves tree) →
  (generate_codes_depth tree ≤ depth)%nat →
  ∃ code_table data padding,
    generate_codes_within depth tree [] = Ok code_table ∧
    encode_text text code_table = Ok (data, padding) ∧
    decode_bits (bytes_to_bits data) tree padding = Ok text.
Proof.
  intros Hroot Hcov Hdepth.
  destruct (encode_decode_round_trip tree text Hroot Hcov)
    as (data & padding & He & Hd).
  exists (generate_codes tree []), data, padding.
  rewrite generate_codes_within_depth.
  by destruct (Nat.leb_spec (generate_codes_depth tree) depth); [|lia].
Qed.

(** *** Bounds on the size of the payload *)

Lemma total_bit_length_bounds text code_table (lo hi : nat) :
  (∀ c, c ∈ text →
        ∃ code, code_table !! c = Some code ∧ (lo ≤ length code ≤ hi)%nat) →
  (lo * length text ≤ total_bit_length text code_table ≤ hi * length text)%nat.
Proof.
  unfold total_bit_length.
  induction text as [|c text IH]; intros Hcodes; [cbn; lia|].
  destruct (Hcodes c) as (code & Hc & Hlen); [by left|].
  destruct IH as [IHlo IHhi]; [intros; apply Hcodes; by right|].
  rewrite fmap_cons. cbn [sum_list_with length]. rewrite Hc. cbn [default id].
  lia.
Qed.

Lemma payload_bounds (tree : node) text (data : list Z) (padding : nat) :
  full tree →
  encode_text text (generate_codes tree []) = Ok (data, padding) →
  (length text ≤ 8 * length data
   ≤ Nat.max 1 (length (leaves tree) - 1) * length text + 7)%nat.
Proof.
  intros Hfull. unfold encode_text.
  destruct (join_codes_cases text (generate_codes tree []))
    as [(bs & Hbs & Hcov)|(-> & _)]; [|done].
  destruct (join_codes_covered text _ Hcov) as (bs' & Hbs' & Hlen).
  rewrite Hbs'. cbn [mbind res_bind]. intros [= <- <-].
  destruct (total_bit_length_bounds text (generate_codes tree []) 1
              (Nat.max 1 (length (leaves tree) - 1))) as [Hlo Hhi].
  { intros c Hc. destruct (Hcov c Hc) as [code Hcode]. exists code.
    split; [done|]. by apply (full_code_length tree c). }
  rewrite length_pack_bits, length_app, length_replicate.
  destruct (padding_of_spec (length bs')) as (Hp & _ & Hdiv & Hmul). lia.
Qed.

(** X18: The size of what a compressor returns: the payload has at least one
    bit for every symbol of the text and, with n different symbols in the
    text, at most max(1, n-1) bits for every symbol plus 7 padding bits. *)
Theorem compress_payload_bounds :
  (∀ depth text data tree padding code_table,
     shannon_fano_compress depth text = Ok (data, tree, padding, code_table) →
     (length text ≤ 8 * length data
      ≤ Nat.max 1 (length (first_occurrences text) - 1) * length text + 7)%nat) ∧
  (∀ ids text data (tree : option node) padding code_table,
     huffman_compress ids text = Ok (data, tree, padding, code_table) →
     (length text ≤ 8 * length data
      ≤ Nat.max 1 (length (first_occurrences text) - 1) * length text + 7)%nat).
Proof.
  split.
  - intros depth text data tree padding code_table. unfold shannon_fano_compress.
    destruct (build_shannon_tree depth _) as [t|] eqn:Ht; [|done].
    cbn [mbind res_bind].
    destruct (encode_text text (generate_codes t [])) as [[d p]|] eqn:He; [|done].
    cbn [mbind res_bind]. intros [= <- <- <- <-].
    pose proof (payload_bounds t text d p (build_shannon_tree_full _ _ _ Ht) He)
      as Hb.
    rewrite (build_shannon_tree_leaves _ _ _ Ht), length_fmap in Hb.
    rewrite (sorted_by_freq_perm (analyze_frequencies text)) in Hb.
    by rewrite <- (length_fmap fst), analyze_frequencies_keys in Hb.
  - intros ids text data tree padding code_table. unfold huffman_compress.
    destruct (build_huffman_tree ids _) as [t|] eqn:Ht; [|done].
    cbn [generate_codes_of mbind res_bind].
    destruct (encode_text text (generate_codes t [])) as [[d p]|] eqn:He; [|done].
    cbn [mbind res_bind]. intros [= <- <- <- <-].
    assert (Hfull : full t).
    { destruct (build_huffman_tree_invariant ids (analyze_frequencies text) full)
        as (t' & Ht' & Hfull); [done|by intros; cbn| |congruence].
      intros Hnil. by rewrite Hnil in Ht. }
    pose proof (payload_bounds t text d p Hfull He) as Hb.
    destruct (build_huffman_tree_leaf_items _ _ _ Ht) as (Hperm & _ & _).
    rewrite leaves_leaf_items, length_fmap, Hperm in Hb.
    by rewrite <- (length_fmap fst), analyze_frequencies_keys in Hb.
Qed.

(** *** The tree builder on doubles *)

Lemma weights_within_nonneg (bound : Z) items :
  (∀ it, it ∈ items → 0 ≤ it.2) → sum_freq items ≤ bound →
  weights_within bound items.
Proof.
  intros Hpos Hsum k.
  assert (0 ≤ sum_freq (take k items)).
  { apply sum_freq_nonneg. intros it Hit. apply Hpos.
    by apply (subseteq_take k items). }
  assert (0 ≤ sum_freq (drop k items)).
  { apply sum_freq_nonneg. intros it Hit. apply Hpos.
    by apply (subseteq_drop k items). }
  rewrite <- (take_drop k items), sum_freq_app in Hsum. lia.
Qed.

Lemma build_shannon_tree_double_exact depth : ∀ items,
  (∀ it, it ∈ items → 0 ≤ it.2) → sum_freq items ≤ 2 ^ 51 →
  build_shannon_tree_double depth items = build_shannon_tree depth items.
Proof.
  induction depth as [|depth IH]; intros items Hpos Hsum; [done|].
  assert (Hnext : (split ← shannon_fano_split_double items;
                   l ← build_shannon_tree_double depth
                         (take (Z.to_nat split) items);
                   r ← build_shannon_tree_double depth
                         (drop (Z.to_nat split) items);
                   Ok (merged_dict (sum_freq items) l r))
                  = (l ← build_shannon_tree depth
                         (take (Z.to_nat (shannon_fano_split items)) items);
                     r ← build_shannon_tree depth
                         (drop (Z.to_nat (shannon_fano_split items)) items);
                     Ok (merged_dict (sum_freq items) l r))).
  { rewrite shannon_fano_split_double_exact
      by (by apply weights_within_nonneg).
    cbn [mbind res_bind].
    pose proof (weights_within_nonneg _ _ Hpos Hsum) as Hw.
    set (k := Z.to_nat (shannon_fano_split items)).
    assert (0 ≤ sum_freq (take k items)).
    { apply sum_freq_nonneg. intros it Hit. apply Hpos.
      by apply (subseteq_take k items). }
    assert (0 ≤ sum_freq (drop k items)).
    { apply sum_freq_nonneg. intros it Hit. apply Hpos.
      by apply (subseteq_drop k items). }
    assert (sum_freq (take k items) + sum_freq (drop k items) = sum_freq items)
      by (by rewrite <- sum_freq_app, take_drop).
    rewrite (IH (take k items)), (IH (drop k items)); [done|..]; try lia.
    - intros it Hit. apply Hpos. by apply (subseteq_drop k items).
    - intros it Hit. apply Hpos. by apply (subseteq_take k items). }
  cbn [build_shannon_tree_double build_shannon_tree].
  destruct items as [|[c f] [|it items]]; [exact Hnext|done|exact Hnext].
Qed.

Lemma sum_freq_analyze_frequencies text :
  sum_freq (analyze_frequencies text) = Z.of_nat (length text).
Proof.
  induction text as [|x text IH] using rev_ind; [done|].
  rewrite analyze_frequencies_snoc, sum_freq_count_symbol, IH, length_app.
  cbn. lia.
Qed.

Lemma analyze_frequencies_nonneg text (it : symbol * Z) :
  it ∈ analyze_frequencies text → 0 ≤ it.2.
Proof.
  destruct it as [c n]. intros Hin.
  assert (Hnd : NoDup (analyze_frequencies text).*1).
  { rewrite analyze_frequencies_keys. apply NoDup_first_occurrences. }
  rewrite <- (freq_of_elem _ c n Hnd Hin), freq_of_analyze_frequencies. cbn. lia.
Qed.

(** On the items of a text of at most 2^51 symbols the doubles are exact:
    the builder with the doubles builds the tree of the exact builder. *)
Lemma build_shannon_tree_double_of_text depth text :
  Z.of_nat (length text) ≤ 2 ^ 51 →
  build_shannon_tree_double depth (sorted_by_freq (analyze_frequencies text))
  = build_shannon_tree depth (sorted_by_freq (analyze_frequencies text)).
Proof.
  intros Hlen. apply build_shannon_tree_double_exact.
  - intros it Hit. rewrite sorted_by_freq_perm in Hit.
    by apply (analyze_frequencies_nonneg text).
  - by rewrite (sum_freq_perm _ _ (sorted_by_freq_perm _)),
      sum_freq_analyze_frequencies.
Qed.

End Properties.

(** ** Concrete runs *)

Ltac eval_codes :=
  repeat match goal with
         | |- context [nat_of_ascii ?c] =>
             let v := eval vm_compute in (nat_of_ascii c) in
             change (nat_of_ascii c) with v
         end.

Lemma encode_text_padding_and_length_witness :
  (∀ c, c ∈ text_of "aab" →
        is_Some (({[ "a"%char := [false] ]} ∪ {[ "b"%char := [true; true] ]}
                  : gmap ascii bits) !! c)) ∧
  ∃ data padding,
    encode_text (text_of "aab") ({[ "a"%char := [false] ]} ∪ {[ "b"%char := [true; true] ]})
      = Ok (data, padding) ∧ padding = 4%nat ∧ length data = 1%nat.
Proof.
  assert (Hcov : ∀ c, c ∈ text_of "aab" →
        is_Some (({[ "a"%char := [false] ]} ∪ {[ "b"%char := [true; true] ]}
                  : gmap ascii bits) !! c)).
  { intros c Hc. cbn in Hc. set_unfold in Hc.
    destruct Hc as [->|[->|[->|[]]]]; vm_compute; eauto. }
  split; [exact Hcov|].
  destruct (encode_text_padding_and_length _ _ Hcov)
    as (data & padding & He & _ & Hp & Hl & _).
  exists data, padding. split; [exact He|]. split; [exact Hp|exact Hl].
Defined.

Lemma shannon_fano_split_double_first_minimum_witness :
  (2 ≤ length (items_abr))%nat ∧
  weights_within (2 ^ 51) items_abr ∧
  shannon_fano_split_double items_abr = Ok 1 ∧
  ∃ b : nat,
    (∀ k, (1 ≤ k ≤ 5)%nat → (split_diff items_abr b <= split_diff items_abr k)%Q) ∧
    shannon_fano_split_double items_abr = Ok (Z.max 1 (Z.min (Z.of_nat b) 4)).
Proof.
  assert (Hlen : (2 ≤ length items_abr)%nat) by (vm_compute; lia).
  assert (Hw : weights_within (2 ^ 51) items_abr).
  { intros k. do 5 (destruct k as [|k]; [vm_compute; discriminate|]).
    destruct k; vm_compute; discriminate. }
  split; [exact Hlen|]. split; [exact Hw|]. split; [vm_compute; reflexivity|].
  destruct (shannon_fano_split_double_first_minimum items_abr Hlen Hw)
    as (b & _ & Hmin & _ & Hsplit & _ & _).
  exists b. split; [exact Hmin|exact Hsplit].
Defined.

(** The claim of C6 fails on the code: the differences are doubles.  With
    the weights 2^53, 1 and 2^53 + 2 the differences at the split points 1
    and 2 are 1.5 and 0.5; as doubles both are 2.0, and the code keeps the
    split point 1, which does not minimise the difference. *)
Lemma shannon_fano_split_double_misses_minimum :
  let items := [("a"%char, 2 ^ 53); ("b"%char, 1); ("c"%char, 2 ^ 53 + 2)] in
  shannon_fano_split_double items = Ok 1 ∧
  (split_diff items 2 < split_diff items 1)%Q ∧
  (∀ k, (1 ≤ k ≤ 3)%nat → (split_diff items 2 <= split_diff items k)%Q) ∧
  Z.max 1 (Z.min 2 (Z.of_nat (length items) - 1)) = 2 ∧
  shannon_fano_split_double items
  ≠ Ok (Z.max 1 (Z.min 2 (Z.of_nat (length items) - 1))).
Proof.
  intros items. split; [vm_compute; reflexivity|].
  split; [vm_compute; reflexivity|]. split.
  - intros k Hk.
    assert (k = 1 ∨ k = 2 ∨ k = 3)%nat as [-> | [-> | ->]] by lia;
      vm_compute; discriminate.
  - split; [reflexivity|]. vm_compute. discriminate.
Qed.

(** From 2^1024 on a weight has no double, and the split raises. *)
Example shannon_fano_split_double_overflow :
  shannon_fano_split_double [("a"%char, 2 ^ 1024); ("b"%char, 1)]
  = Raise OverflowError.
Proof. vm_compute. reflexivity. Qed.


Lemma generate_codes_prefix_free_witness :
  generate_codes tree_abr [] !! "b"%char = Some [true; false] ∧
  generate_codes tree_abr [] !! "r"%char = Some [true; true; false] ∧
  ¬ [true; false] `prefix_of` [true; true; false].
Proof.
  assert (Hb : generate_codes tree_abr [] !! "b"%char = Some [true; false])
    by (vm_compute; reflexivity).
  assert (Hr : generate_codes tree_abr [] !! "r"%char = Some [true; true; false])
    by (vm_compute; reflexivity).
  split; [exact Hb|]. split; [exact Hr|].
  refine (proj1 (generate_codes_prefix_free tree_abr _ _ _ _ Hb Hr _)).
  discriminate.
Defined.

Lemma decode_bits_partial_path_is_dropped_witness :
  ∃ nd,
    descend tree_abr [true; true] = Some nd ∧
    decode_bits ([false] ++ [true; false] ++ [true; true] ++ [false; false])
                tree_abr 2
    = Ok (text_of "ab").
Proof.
  eexists. split; [vm_compute; reflexivity|].
  refine (proj1 (proj2 (proj2 (proj2 (decode_bits_partial_path_is_dropped tree_abr
            [("a"%char, [false]); ("b"%char, [true; false])]
            [true; true] [false; false] _ _ _ _))))).
  - repeat constructor.
  - discriminate.
  - vm_compute. reflexivity.
Defined.


Lemma build_huffman_tree_creation_ordered_witness :
  creation_ordered ids_up table_abcd ∧
  creation_ordered (sequence_ids table_abcd) table_abcd ∧
  build_huffman_tree ids_up table_abcd
  = build_huffman_tree (sequence_ids table_abcd) table_abcd.
Proof.
  assert (Ekeys : table_abcd.*1 = ["a"; "b"; "c"; "d"]%char) by reflexivity.
  assert (Hup : creation_ordered ids_up table_abcd).
  { split; [|split].
    - vm_compute. repeat constructor.
    - intros c k Hc. rewrite Ekeys in Hc. set_unfold in Hc.
      destruct Hc as [->|[->|[->|[->|[]]]]];
        unfold ids_up; cbn; eval_codes; lia.
    - intros k k' Hk. unfold ids_up. cbn. lia. }
  assert (Hseq : creation_ordered (sequence_ids table_abcd) table_abcd).
  { apply sequence_ids_creation_ordered. rewrite Ekeys.
    apply (bool_decide_unpack _). vm_compute. exact I. }
  split; [exact Hup|]. split; [exact Hseq|].
  exact (proj1 (build_huffman_tree_creation_ordered ids_up
                  (sequence_ids table_abcd) table_abcd Hup Hseq)).
Defined.

(** The claim of C3 fails on the code: the Shannon-Fano payload of
    ["abracadabra"] is three bytes; cut to two, the bits end in the middle of
    a code word, on a dict that is not the root and has no ['char'], and
    decompression returns ["abraca"] without raising. *)
Lemma truncated_payload_decodes_silently :
  shannon_fano_compress 5 (text_of "abracadabra")
    = Ok ([89; 207; 88], tree_abr, 1%nat, generate_codes tree_abr []) ∧
  shannon_fano_decompress [89; 207] tree_abr 1 = Ok (text_of "abraca") ∧
  ∃ nd, decode_loop tree_abr (strip_padding (bytes_to_bits [89; 207]) 1) tree_abr []
        = Ok (text_of "abraca", nd) ∧
        nd ≠ tree_abr ∧ node_char nd = None.
Proof.
  split; [vm_compute; reflexivity|]. split; [vm_compute; reflexivity|].
  eexists. split; [vm_compute; reflexivity|]. split; [discriminate|reflexivity].
Qed.

(** The claim of C7 fails on the code: ["ab"] and ["ba"] have the same
    symbols with the same frequencies, and the builder gets the items in two
    different orders. *)
Lemma shannon_items_depend_on_text_order :
  analyze_frequencies (text_of "ab") ≡ₚ analyze_frequencies (text_of "ba") ∧
  sorted_by_freq (analyze_frequencies (text_of "ab"))
    = [("a"%char, 1); ("b"%char, 1)] ∧
  sorted_by_freq (analyze_frequencies (text_of "ba"))
    = [("b"%char, 1); ("a"%char, 1)] ∧
  sorted_by_freq (analyze_frequencies (text_of "ab"))
    ≠ sorted_by_freq (analyze_frequencies (text_of "ba")).
Proof.
  split; [apply perm_swap|]. split; [reflexivity|]. split; [reflexivity|].
  discriminate.
Qed.

(** The claim of C9 fails on the code: with the identities of the merged
    dicts falling instead of growing, the same table gives another tree; the
    merged dict made second is taken out before the one made first. *)
Lemma huffman_tree_depends_on_identities :
  build_huffman_tree ids_up table_abcd
    = Some (merged_dict 4
              (merged_dict 2 (leaf_dict "a"%char 1) (leaf_dict "b"%char 1))
              (merged_dict 2 (leaf_dict "c"%char 1) (leaf_dict "d"%char 1))) ∧
  build_huffman_tree ids_down table_abcd
    = Some (merged_dict 4
              (merged_dict 2 (leaf_dict "c"%char 1) (leaf_dict "d"%char 1))
              (merged_dict 2 (leaf_dict "a"%char 1) (leaf_dict "b"%char 1))) ∧
  build_huffman_tree ids_up table_abcd ≠ build_huffman_tree ids_down table_abcd.
Proof.
  split; [reflexivity|]. split; [reflexivity|]. discriminate.
Qed.


(** Two split points at the same distance from half the weight: the first
    is kept. *)
Example split_tie_keeps_first :
  split_diff [("a"%char, 2); ("b"%char, 1); ("c"%char, 2)] 1
  = split_diff [("a"%char, 2); ("b"%char, 1); ("c"%char, 2)] 2 ∧
  shannon_fano_split [("a"%char, 2); ("b"%char, 1); ("c"%char, 2)] = 1.
Proof. split; reflexivity. Qed.

(** The first scenario of the specification, ["aaaa"], on the code. *)
Example aaaa_compresses_but_does_not_decompress :
  shannon_fano_compress 1 (text_of "aaaa")
    = Ok ([0], leaf_dict "a"%char 4, 4%nat, {[ "a"%char := [false] ]}) ∧
  shannon_fano_decompress [0] (leaf_dict "a"%char 4) 4 = Raise KeyError ∧
  huffman_compress ids_up (text_of "aaaa")
    = Ok ([0], Some (leaf_dict "a"%char 4), 4%nat, {[ "a"%char := [false] ]}) ∧
  huffman_decompress [0] (leaf_dict "a"%char 4) 4 = Raise KeyError.
Proof. repeat split; vm_compute; reflexivity. Qed.

(** The second scenario, ["ab"]. *)
Example ab_round_trip :
  ∃ tree,
    huffman_compress ids_up (text_of "ab")
      = Ok ([64], Some tree, 6%nat, generate_codes tree []) ∧
    generate_codes tree [] !! "a"%char = Some [false] ∧
    generate_codes tree [] !! "b"%char = Some [true] ∧
    huffman_decompress [64] tree 6 = Ok (text_of "ab").
Proof. eexists. repeat split; vm_compute; reflexivity. Qed.

(** Concrete instances of the further properties. *)

Lemma bytes_to_bits_of_packed_bits_witness :
  (length [true; false; true; true; false; false; false; true] mod 8 = 0)%nat ∧
  bytes_to_bits (pack_bits [true; false; true; true; false; false; false; true])
  = [true; false; true; true; false; false; false; true].
Proof.
  assert (Hlen : (length [true; false; true; true; false; false; false; true]
                  mod 8 = 0)%nat) by reflexivity.
  split; [exact Hlen|].
  exact (proj1 (bytes_to_bits_of_packed_bits _ Hlen)).
Defined.

Lemma pack_bits_of_bytes_to_bits_witness :
  Forall (λ byte, 0 ≤ byte < 256) [89; 207; 88] ∧
  pack_bits (bytes_to_bits [89; 207; 88]) = [89; 207; 88].
Proof.
  assert (Hdata : Forall (λ byte, 0 ≤ byte < 256) [89; 207; 88])
    by (repeat constructor; lia).
  split; [exact Hdata|].
  exact (proj1 (pack_bits_of_bytes_to_bits _ Hdata)).
Defined.

Lemma round_trip_two_symbols_witness :
  "a"%char ∈ text_of "abracadabra" ∧ "b"%char ∈ text_of "abracadabra" ∧
  "a"%char ≠ "b"%char ∧
  (length (first_occurrences (text_of "abracadabra")) ≤ 5)%nat ∧
  (∃ data tree padding code_table,
     shannon_fano_compress 5 (text_of "abracadabra")
       = Ok (data, tree, padding, code_table) ∧
     shannon_fano_decompress data tree padding = Ok (text_of "abracadabra")) ∧
  (∃ data tree padding code_table,
     huffman_compress ids_up (text_of "abracadabra")
       = Ok (data, Some tree, padding, code_table) ∧
     huffman_decompress data tree padding = Ok (text_of "abracadabra")).
Proof.
  assert (Ha : "a"%char ∈ text_of "abracadabra") by (cbn; by left).
  assert (Hb : "b"%char ∈ text_of "abracadabra") by (cbn; right; by left).
  assert (Hab : "a"%char ≠ "b"%char) by discriminate.
  assert (Hd : (length (first_occurrences (text_of "abracadabra")) ≤ 5)%nat)
    by (vm_compute; lia).
  split; [exact Ha|]. split; [exact Hb|]. split; [exact Hab|]. split; [exact Hd|].
  exact (round_trip_two_symbols _ _ _ 5%nat ids_up Ha Hb Hab Hd).
Defined.

Lemma decode_bits_full_tree_returns_witness :
  full tree_abr ∧ node_char tree_abr = None ∧
  ∃ out, decode_bits [true; true; true; false; true; true; true] tree_abr 0
         = Ok out ∧ (length out ≤ 7)%nat.
Proof.
  assert (Hfull : full tree_abr) by (cbn; tauto).
  assert (Hroot : node_char tree_abr = None) by reflexivity.
  split; [exact Hfull|]. split; [exact Hroot|].
  destruct (decode_bits_full_tree_returns tree_abr
              [true; true; true; false; true; true; true] 0 Hfull Hroot)
    as (out & Hout & Hlen & _).
  exists out. split; [exact Hout|exact Hlen].
Defined.

Lemma build_shannon_tree_keeps_items_witness :
  build_shannon_tree 5 items_abr = Ok tree_abr ∧
  leaf_items tree_abr = items_abr ∧ node_freq tree_abr = sum_freq items_abr.
Proof.
  assert (Ht : build_shannon_tree 5 items_abr = Ok tree_abr)
    by (vm_compute; reflexivity).
  split; [exact Ht|].
  destruct (build_shannon_tree_keeps_items 5 items_abr tree_abr Ht)
    as (Hi & _ & _ & Hf).
  split; [exact Hi|exact Hf].
Defined.

Lemma build_huffman_tree_keeps_table_witness :
  ∃ t, build_huffman_tree ids_up table_abcd = Some t ∧
       leaf_items t ≡ₚ table_abcd ∧ node_freq t = sum_freq table_abcd.
Proof.
  eexists. 
  assert (Ht : build_huffman_tree ids_up table_abcd
               = Some (merged_dict 4
                   (merged_dict 2 (leaf_dict "a"%char 1) (leaf_dict "b"%char 1))
                   (merged_dict 2 (leaf_dict "c"%char 1) (leaf_dict "d"%char 1))))
    by reflexivity.
  split; [exact Ht|].
  destruct (build_huffman_tree_keeps_table ids_up table_abcd _ Ht)
    as (Hi & _ & _ & Hf).
  split; [exact Hi|exact Hf].
Defined.

Lemma code_lengths_bounded_witness :
  build_shannon_tree 5 items_abr = Ok tree_abr ∧
  generate_codes tree_abr [] !! "d"%char = Some [true; true; true; true] ∧
  (1 ≤ length [true; true; true; true] ≤ Nat.max 1 (length items_abr - 1))%nat.
Proof.
  assert (Ht : build_shannon_tree 5 items_abr = Ok tree_abr)
    by (vm_compute; reflexivity).
  assert (Hd : generate_codes tree_abr [] !! "d"%char
               = Some [true; true; true; true]) by (vm_compute; reflexivity).
  split; [exact Ht|]. split; [exact Hd|].
  exact (proj1 (code_lengths_bounded (symbol := ascii)) 5%nat items_abr tree_abr
           "d"%char [true; true; true; true] Ht Hd).
Defined.

Lemma encode_text_payload_size_witness :
  encode_text (text_of "abracadabra") (generate_codes tree_abr [])
    = Ok ([89; 207; 88], 1%nat) ∧
  8 * Z.of_nat (length [89; 207; 88])
  = weighted_length (analyze_frequencies (text_of "abracadabra"))
      (generate_codes tree_abr []) + Z.of_nat 1.
Proof.
  assert (He : encode_text (text_of "abracadabra") (generate_codes tree_abr [])
               = Ok ([89; 207; 88], 1%nat)) by (vm_compute; reflexivity).
  split; [exact He|].
  exact (encode_text_payload_size _ _ _ _ He).
Defined.

Lemma arithmetic_round_trip_witness :
  (text_of "ab" = [] ∨
   ∃ a b : ascii, a ∈ text_of "ab" ∧ b ∈ text_of "ab" ∧ a ≠ b) ∧
  ∃ data metadata padding,
    arithmetic_compress ids_up (text_of "ab") = Ok (data, metadata, padding) ∧
    arithmetic_decompress data metadata padding = Ok (text_of "ab").
Proof.
  assert (Hab : text_of "ab" = [] ∨
                ∃ a b : ascii, a ∈ text_of "ab" ∧ b ∈ text_of "ab" ∧ a ≠ b).
  { right. exists "a"%char, "b"%char.
    split; [cbn; by left|]. split; [cbn; right; by left|discriminate]. }
  split; [exact Hab|].
  exact (arithmetic_round_trip ids_up _ Hab).
Defined.

Lemma arithmetic_decompress_default_padding_witness :
  "a"%char ∈ text_of "ab" ∧ "b"%char ∈ text_of "ab" ∧ "a"%char ≠ "b"%char ∧
  ∃ data metadata padding extra,
    arithmetic_compress ids_up (text_of "ab") = Ok (data, Some metadata, padding) ∧
    arithmetic_decompress data (Some metadata) 0 = Ok (text_of "ab" ++ extra).
Proof.
  assert (Ha : "a"%char ∈ text_of "ab") by (cbn; by left).
  assert (Hb : "b"%char ∈ text_of "ab") by (cbn; right; by left).
  assert (Hab : "a"%char ≠ "b"%char) by discriminate.
  split; [exact Ha|]. split; [exact Hb|]. split; [exact Hab|].
  destruct (arithmetic_decompress_default_padding ids_up _ _ _ Ha Hb Hab)
    as (data & metadata & padding & tree & extra & nd & Hc & _ & _ & Hd & _).
  exists data, metadata, padding, extra. split; [exact Hc|exact Hd].
Defined.


Lemma demo_equivalence_raises_witness :
  utf8_encodable 97 = true ∧
  utf8_encodable 55296 = false ∧
  demo_equivalence (λ _, true) utf8_encodable 1 ids_code_points ids_code_points
    (replicate 4 97)
  = Raise KeyError ∧
  demo_equivalence (λ _, true) utf8_encodable 1 ids_code_points ids_code_points
    (replicate 4 55296)
  = Raise UnicodeEncodeError ∧
  demo_equivalence utf8_encodable utf8_encodable 1 ids_code_points ids_code_points
    [97; 55296; 98]
  = Raise UnicodeEncodeError.
Proof.
  assert (Ha : utf8_encodable 97 = true) by reflexivity.
  assert (Hs : utf8_encodable 55296 = false) by reflexivity.
  assert (Hin : 55296 ∈ take 100 [97; 55296; 98]) by (cbn; right; by left).
  split; [exact Ha|]. split; [exact Hs|].
  split; [|split].
  - exact (proj1 (proj2 (demo_equivalence_raises (λ _, true) utf8_encodable 0
                           ids_code_points ids_code_points))
             97 3%nat eq_refl Ha).
  - exact (proj1 (proj2 (proj2 (demo_equivalence_raises (λ _, true) utf8_encodable
                                  0 ids_code_points ids_code_points)))
             55296 3%nat Hs).
  - exact (proj2 (proj2 (proj2 (demo_equivalence_raises utf8_encodable
                                  utf8_encodable 1 ids_code_points
                                  ids_code_points)))
             [97; 55296; 98] 55296 Hin Hs).
Defined.

(** The demonstration on ["ab"]: the payload is the bits ["01"] and six
    padding bits, which the arithmetic decompression, called without the
    padding count, decodes as six more ["a"]; the flag is [False]. *)
Example demo_equivalence_ab :
  arithmetic_compress ids_up (text_of "ab")
  = Ok ([64],
        Some (Metadata [("a"%char, 1); ("b"%char, 1)]
                (Some (merged_dict 2 (leaf_dict "a"%char 1) (leaf_dict "b"%char 1)))
                (generate_codes
                   (merged_dict 2 (leaf_dict "a"%char 1) (leaf_dict "b"%char 1)) [])
                2),
        6%nat) ∧
  (m ← arithmetic_compress ids_up (text_of "ab");
   arithmetic_decompress m.1.1 m.1.2 0) = Ok (text_of "abaaaaaa") ∧
  (m ← arithmetic_compress ids_up (text_of "ab");
   arithmetic_decompress m.1.1 m.1.2 m.2) = Ok (text_of "ab") ∧
  demo_equivalence (λ _, true) (λ _, true) 2 ids_up ids_up (text_of "ab")
  = Ok false.
Proof. repeat split; vm_compute; reflexivity. Qed.

(** The demonstration on a text with a lone surrogate, ['a\ud800b'] as code
    points: both compressions before the first [print_stats] return, and
    the UTF-8 encoding in [print_stats] raises. *)
Example demo_equivalence_lone_surrogate :
  (∃ data tree padding code_table,
     shannon_fano_compress 3 [97; 55296; 98]
     = Ok (data, tree, padding, code_table)) ∧
  print_stats utf8_encodable [97; 55296; 98] [] ()
  = Raise UnicodeEncodeError ∧
  demo_equivalence (λ _, true) utf8_encodable 3 ids_code_points ids_code_points
    [97; 55296; 98]
  = Raise UnicodeEncodeError.
Proof.
  split; [|split; vm_compute; reflexivity].
  eexists _, _, _, _. vm_compute. reflexivity.
Qed.

Lemma compress_code_table_keys_witness :
  shannon_fano_compress 5 (text_of "abracadabra")
    = Ok ([89; 207; 88], tree_abr, 1%nat, generate_codes tree_abr []) ∧
  (is_Some (generate_codes tree_abr [] !! "r"%char) ↔
   "r"%char ∈ text_of "abracadabra").
Proof.
  assert (Hc : shannon_fano_compress 5 (text_of "abracadabra")
               = Ok ([89; 207; 88], tree_abr, 1%nat, generate_codes tree_abr []))
    by (vm_compute; reflexivity).
  split; [exact Hc|].
  exact (proj1 (compress_code_table_keys (symbol := ascii)) 5%nat _ _ _ _ _ Hc
           "r"%char).
Defined.

Lemma encode_text_decode_bits_inverse_witness :
  node_char tree_abr = None ∧
  (∀ c, c ∈ text_of "dab" → c ∈ leaves tree_abr) ∧
  (generate_codes_depth tree_abr ≤ 5)%nat ∧
  generate_codes_within 4 tree_abr [] = Raise RecursionError ∧
  ∃ code_table data padding,
    generate_codes_within 5 tree_abr [] = Ok code_table ∧
    encode_text (text_of "dab") code_table = Ok (data, padding) ∧
    decode_bits (bytes_to_bits data) tree_abr padding = Ok (text_of "dab").
Proof.
  assert (Hroot : node_char tree_abr = None) by reflexivity.
  assert (Hcov : ∀ c, c ∈ text_of "dab" → c ∈ leaves tree_abr).
  { intros c Hc. cbn in Hc. cbn.
    apply elem_of_cons in Hc as [->|Hc]; [do 4 right; by left|].
    apply elem_of_cons in Hc as [->|Hc]; [by left|].
    apply elem_of_cons in Hc as [->|Hc]; [right; by left|].
    by apply elem_of_nil in Hc. }
  assert (Hdepth : (generate_codes_depth tree_abr ≤ 5)%nat) by (vm_compute; lia).
  split; [exact Hroot|]. split; [exact Hcov|]. split; [exact Hdepth|].
  split; [vm_compute; reflexivity|].
  exact (encode_text_decode_bits_inverse 5 tree_abr _ Hroot Hcov Hdepth).
Defined.

Lemma compress_payload_bounds_witness :
  shannon_fano_compress 5 (text_of "abracadabra")
    = Ok ([89; 207; 88], tree_abr, 1%nat, generate_codes tree_abr []) ∧
  (length (text_of "abracadabra") ≤ 8 * length [89; 207; 88]
   ≤ Nat.max 1 (length (first_occurrences (text_of "abracadabra")) - 1)
     * length (text_of "abracadabra") + 7)%nat.
Proof.
  assert (Hc : shannon_fano_compress 5 (text_of "abracadabra")
               = Ok ([89; 207; 88], tree_abr, 1%nat, generate_codes tree_abr []))
    by (vm_compute; reflexivity).
  split; [exact Hc|].
  exact (proj1 (compress_payload_bounds (symbol := ascii)) 5%nat _ _ _ _ _ Hc).
Defined.

